(** * CSV import wizard: column mapping, duplicate grouping and resolution

    A shallow embedding of the reconciliation logic of the import form
    (the component [CSVImportForm] and its helpers [calculateFinalData] and
    [extractRootDomain]) together with the remote lookup contract of
    [lib/airtable.ts].

    Conventions.
    - A JavaScript string is a [string]; the built-ins [split], [trim],
      [toLowerCase] and the three regular expressions of the source are
      modelled on ASCII text.
    - A JavaScript object used as a dictionary is an association list
      with one entry per key ([JS.obj]), kept in insertion order; only
      own properties are modelled.  JavaScript lists keys that look like
      array indices before the others, and treats the name [__proto__]
      apart: statements that depend on either say so.
    - React state is passed explicitly; [console.log] is dropped, and
      [console.error] is an explicit log where a claim speaks about it. *)

From Stdlib Require Import List String Ascii Bool Arith Lia DecimalString Sorted.
Import ListNotations.
Open Scope string_scope.

(* ================================================================== *)
(** ** JavaScript strings and objects *)

Module JS.

(** [s.split(sep)] for a one-character separator. *)
Fixpoint split (sep : ascii) (s : string) : list string :=
  match s with
  | EmptyString => [EmptyString]
  | String c s' =>
      if Ascii.eqb c sep then EmptyString :: split sep s'
      else match split sep s' with
           | [] => [String c EmptyString]
           | x :: xs => String c x :: xs
           end
  end.

(** [l.join(sep)]. *)
Fixpoint join (sep : string) (l : list string) : string :=
  match l with
  | [] => EmptyString
  | [x] => x
  | x :: rest => x ++ sep ++ join sep rest
  end.

Definition is_ws (c : ascii) : bool :=
  let n := nat_of_ascii c in
  Nat.eqb n 32 || (Nat.leb 9 n && Nat.leb n 13).

Fixpoint trimStart (s : string) : string :=
  match s with
  | EmptyString => EmptyString
  | String c s' => if is_ws c then trimStart s' else s
  end.

Fixpoint trimEnd (s : string) : string :=
  match s with
  | EmptyString => EmptyString
  | String c s' =>
      match trimEnd s' with
      | EmptyString => if is_ws c then EmptyString else String c EmptyString
      | t => String c t
      end
  end.

(** [s.trim()]. *)
Definition trim (s : string) : string := trimEnd (trimStart s).

Definition lower_char (c : ascii) : ascii :=
  let n := nat_of_ascii c in
  if Nat.leb 65 n && Nat.leb n 90 then ascii_of_nat (n + 32) else c.

(** [s.toLowerCase()]. *)
Fixpoint toLowerCase (s : string) : string :=
  match s with
  | EmptyString => EmptyString
  | String c s' => String (lower_char c) (toLowerCase s')
  end.

(** [s.startsWith(p)]. *)
Fixpoint startsWith (p s : string) : bool :=
  match p, s with
  | EmptyString, _ => true
  | String a p', String b s' => Ascii.eqb a b && startsWith p' s'
  | String _ _, EmptyString => false
  end.

(** Truthiness of a string value: only the empty string is falsy. *)
Definition truthy (s : string) : bool := negb (String.eqb s EmptyString).

(** An object used as a dictionary: own properties in insertion order. *)
Definition obj (V : Type) : Type := list (string * V).

Section Obj.
Context {V : Type}.

(** [o[k]]; [None] is [undefined]. *)
Fixpoint get (o : obj V) (k : string) : option V :=
  match o with
  | [] => None
  | (k', v) :: o' => if String.eqb k' k then Some v else get o' k
  end.

(** [o[k] = v]: an existing key keeps its position, a new one goes last. *)
Fixpoint set (o : obj V) (k : string) (v : V) : obj V :=
  match o with
  | [] => [(k, v)]
  | (k', v') :: o' =>
      if String.eqb k' k then (k', v) :: o' else (k', v') :: set o' k v
  end.

(** [delete o[k]]. *)
Definition delete (o : obj V) (k : string) : obj V :=
  filter (fun e => negb (String.eqb (fst e) k)) o.

Definition keys (o : obj V) : list string := map fst o.
Definition values (o : obj V) : list V := map snd o.

(** Well-formed objects hold one entry per key. *)
Definition wf (o : obj V) : Prop := NoDup (keys o).
End Obj.

(** [row[k]] where the key expression [k] may itself be [undefined]:
    the property name is then the string "undefined". *)
Definition prop_key (k : option string) : string :=
  match k with Some s => s | None => "undefined" end.

End JS.

(** [arr.map((x, index) => ...)] and [arr.forEach((x, index) => ...)]. *)
Definition indexed {A : Type} (l : list A) : list (nat * A) :=
  combine (seq 0 (List.length l)) l.

(* ================================================================== *)
(** ** Data model *)

(** The ten canonical fields, in the order of [DuplicateMatchFields]. *)
Inductive field : Type :=
| appName | appId | developer | category | country
| companyWebsite | companyLinkedinUrl | sensorTowerId | googlePlayId
| developerId.

Definition all_fields : list field :=
  [appName; appId; developer; category; country; companyWebsite;
   companyLinkedinUrl; sensorTowerId; googlePlayId; developerId].

Definition field_name (f : field) : string :=
  match f with
  | appName => "appName"
  | appId => "appId"
  | developer => "developer"
  | category => "category"
  | country => "country"
  | companyWebsite => "companyWebsite"
  | companyLinkedinUrl => "companyLinkedinUrl"
  | sensorTowerId => "sensorTowerId"
  | googlePlayId => "googlePlayId"
  | developerId => "developerId"
  end.

Definition field_eqb (f g : field) : bool :=
  String.eqb (field_name f) (field_name g).

(** [AvailableField]: a canonical key and its column label. *)
Record AvailableField : Type := mkAvailable { value : string; label : string }.

Definition availableFields : list AvailableField :=
  [ mkAvailable "appName" "App Name";
    mkAvailable "appId" "App ID";
    mkAvailable "developer" "Developer";
    mkAvailable "category" "Category";
    mkAvailable "country" "Country";
    mkAvailable "companyWebsite" "Company Website";
    mkAvailable "companyLinkedinUrl" "Company LinkedIn URL";
    mkAvailable "sensorTowerId" "Sensor Tower ID";
    mkAvailable "googlePlayId" "Google Play ID";
    mkAvailable "developerId" "Developer ID" ].

(** A parsed CSV row: header -> trimmed cell, [None] when the line is too
    short ([values[index]?.trim()] is [undefined]). *)
Definition Row : Type := JS.obj (option string).

(** [mappings]: canonical or custom key -> CSV header. *)
Definition Mappings : Type := JS.obj string.

(** [row[h] || ""]. *)
Definition rowValue (row : Row) (h : string) : string :=
  match JS.get row h with
  | Some (Some v) => v
  | _ => EmptyString
  end.

(** [row[mappings[f]] || ""]. *)
Definition cell (row : Row) (mappings : Mappings) (f : string) : string :=
  rowValue row (JS.prop_key (JS.get mappings f)).

(** The object literal [appData] / [formattedRow] built from one row. *)
Record AppData : Type := mkAppData {
  d_appName : string;
  d_appId : string;
  d_developer : string;
  d_category : string;
  d_country : string;
  d_companyWebsite : string;
  d_companyLinkedinUrl : string;
  d_sensorTowerId : string;
  d_googlePlayId : string;
  d_developerId : string
}.

Definition formatRow (mappings : Mappings) (row : Row) : AppData :=
  {| d_appName := cell row mappings "appName";
     d_appId := cell row mappings "appId";
     d_developer := cell row mappings "developer";
     d_category := cell row mappings "category";
     d_country := cell row mappings "country";
     d_companyWebsite := cell row mappings "companyWebsite";
     d_companyLinkedinUrl := cell row mappings "companyLinkedinUrl";
     d_sensorTowerId := cell row mappings "sensorTowerId";
     d_googlePlayId := cell row mappings "googlePlayId";
     d_developerId := cell row mappings "developerId" |}.

(** [appData] together with its [_originalIndex]. *)
Record IndexedAppData : Type := mkIndexed {
  fields : AppData;
  _originalIndex : nat
}.

(** [appData[field]] for a canonical field name. *)
Definition getField (f : field) (a : AppData) : string :=
  match f with
  | appName => d_appName a
  | appId => d_appId a
  | developer => d_developer a
  | category => d_category a
  | country => d_country a
  | companyWebsite => d_companyWebsite a
  | companyLinkedinUrl => d_companyLinkedinUrl a
  | sensorTowerId => d_sensorTowerId a
  | googlePlayId => d_googlePlayId a
  | developerId => d_developerId a
  end.

(* ================================================================== *)
(** ** CSV parser and column mapper *)

Definition newline : ascii := "010"%char.
Definition comma : ascii := ","%char.

(** The key under which [parseCSV] files a header: the canonical key whose
    label equals the header case-insensitively, else [custom_<header>]. *)
Definition autoKey (header : string) : string :=
  match find (fun fld => String.eqb (JS.toLowerCase (label fld))
                                    (JS.toLowerCase header)) availableFields with
  | Some matchingField => value matchingField
  | None => "custom_" ++ header
  end.

(** [initialMappings] after the [headers.forEach] of [parseCSV]. *)
Definition initialMappings (headers : list string) : Mappings :=
  fold_left (fun m header => JS.set m (autoKey header) header) headers [].

(** One data line: [headers.reduce((obj, header, index) => ...)]. *)
Definition parseLine (headers : list string) (line : string) : Row :=
  let values := JS.split comma line in
  fold_left (fun obj ih =>
               JS.set obj (snd ih) (option_map JS.trim (nth_error values (fst ih))))
            (indexed headers) [].

Record Parsed : Type := mkParsed {
  p_headers : list string;
  p_mappings : Mappings;
  p_data : list Row
}.

Definition parseCSV (content : string) : Parsed :=
  let lines := JS.split newline content in
  let headers := map JS.trim (JS.split comma (hd EmptyString lines)) in
  {| p_headers := headers;
     p_mappings := initialMappings headers;
     p_data := map (parseLine headers) (tl lines) |}.

(** [handleMappingChange(header, value)]. *)
Definition handleMappingChange (header value : string) (prev : Mappings) : Mappings :=
  let removed :=
    fold_left (fun m key =>
                 match JS.get m key with
                 | Some h => if String.eqb h header then JS.delete m key else m
                 | None => m
                 end) (JS.keys prev) prev in
  JS.set removed value header.

(** The mapping entries whose header is [h]. *)
Definition slots (m : Mappings) (h : string) : list string :=
  map fst (filter (fun e => String.eqb (snd e) h) m).

(** The invariant kept by the mapper: one entry per key, and no header
    stored under two keys. *)
Definition mappingInv (m : Mappings) : Prop :=
  JS.wf m /\ NoDup (JS.values m).

(* ================================================================== *)
(** ** Validator *)

(** [appSchema.safeParse(formattedRow).success]: every field is a string,
    so only [appName: z.string().min(1)] can fail. *)
Definition appSchema_ok (a : AppData) : bool :=
  Nat.leb 1 (String.length (d_appName a)).

(** [validateData]: the invalid rows, and whether there are none. *)
Definition invalidRows (mappings : Mappings) (data : list Row) : list Row :=
  filter (fun row => negb (appSchema_ok (formatRow mappings row))) data.

Definition validateData (mappings : Mappings) (data : list Row) : bool :=
  Nat.eqb (List.length (invalidRows mappings data)) 0.

(* ================================================================== *)
(** ** Intra-file duplicate grouper *)

(** [DuplicateMatchFields]: one flag per canonical field, read by field. *)
Definition DuplicateMatchFields : Type := field -> bool.

(** The initial [duplicateMatchFields]: only [appName] is ticked. *)
Definition defaultMatchFields : DuplicateMatchFields :=
  fun f => field_eqb f appName.

(** [Object.entries(duplicateMatchFields).filter(...).map(([field]) => field)]. *)
Definition selectedMatchFields (mf : DuplicateMatchFields) : list field :=
  filter mf all_fields.

(** The composite key of one record:
    [selectedMatchFields.map(field => `${field}:${value}`).join('|')]. *)
Definition compositeKey (sel : list field) (a : IndexedAppData) : string :=
  JS.join "|" (map (fun f => field_name f ++ ":" ++ getField f (fields a)) sel).

Record DuplicateGroup : Type := mkGroup {
  key : string;
  records : list IndexedAppData;
  matchedOn : list field
}.

(** [duplicateGroups[k]], or the empty array when the bucket is missing. *)
Definition bucketOf (o : JS.obj (list IndexedAppData)) (k : string)
  : list IndexedAppData :=
  match JS.get o k with
  | Some l => l
  | None => []
  end.

(** One iteration of [data.forEach]: create the bucket if it is missing,
    then push the record. *)
Definition pushRecord (sel : list field)
    (duplicateGroups : JS.obj (list IndexedAppData)) (a : IndexedAppData)
  : JS.obj (list IndexedAppData) :=
  let k := compositeKey sel a in
  JS.set duplicateGroups k (bucketOf duplicateGroups k ++ [a])%list.

Definition appDataOf (mappings : Mappings) (data : list Row)
  : list IndexedAppData :=
  map (fun ir => mkIndexed (formatRow mappings (snd ir)) (fst ir)) (indexed data).

Definition duplicateGroups (mappings : Mappings) (sel : list field)
    (data : list Row) : JS.obj (list IndexedAppData) :=
  fold_left (pushRecord sel) (appDataOf mappings data) [].

(** [csvDuplicatesFound]: the buckets with more than one record. *)
Definition csvDuplicatesFound (mappings : Mappings) (sel : list field)
    (data : list Row) : list DuplicateGroup :=
  map (fun e => mkGroup (fst e) (snd e) sel)
      (filter (fun e => Nat.ltb 1 (List.length (snd e)))
              (duplicateGroups mappings sel data)).

(** Row [index] is a member of group [g]. *)
Definition isMember (index : nat) (g : DuplicateGroup) : bool :=
  existsb (fun r => Nat.eqb (_originalIndex r) index) (records g).

(** Rows [i] and [j] land in the same group of the output. *)
Definition sameGroup (found : list DuplicateGroup) (i j : nat) : Prop :=
  exists g, In g found /\ isMember i g = true /\ isMember j g = true.

(** The claimed grouping criterion: equal values on every selected field. *)
Definition sameSelectedValues (sel : list field) (a b : AppData) : Prop :=
  forall f, In f sel -> getField f a = getField f b.

(** No selected value of the record contains the key separator. *)
Fixpoint hasPipe (s : string) : bool :=
  match s with
  | EmptyString => false
  | String c s' => Ascii.eqb c "|"%char || hasPipe s'
  end.

Definition pipeFree (sel : list field) (a : AppData) : Prop :=
  forall f, In f sel -> hasPipe (getField f a) = false.

(* ================================================================== *)
(** ** Intra-file resolution engine *)

(** [CsvDuplicateResolution].  The action is the string held at run time
    ([None] when the property is absent); the type [DuplicateAction] is
    the predicate [isDuplicateAction]. *)
Record CsvDuplicateResolution : Type := mkRes {
  action : option string;
  selectedIndex : nat;
  mergeFields : option (JS.obj nat)
}.

Definition isDuplicateAction (a : string) : bool :=
  existsb (String.eqb a) ["keepFirst"; "keepLast"; "merge"; "skip"].

Definition Resolutions : Type := JS.obj CsvDuplicateResolution.

(** [group.records[0]._originalIndex] and
    [group.records[group.records.length - 1]._originalIndex].  A group
    always has records (the grouper keeps buckets of two or more), so the
    default is never read. *)
Definition firstIndex (g : DuplicateGroup) : nat :=
  match records g with
  | r :: _ => _originalIndex r
  | [] => 0
  end.

Definition lastIndex (g : DuplicateGroup) : nat :=
  last (map _originalIndex (records g)) 0.

(** The index chosen by the bulk selector for action [a]. *)
Definition bulkIndex (a : string) (g : DuplicateGroup) : nat :=
  if String.eqb a "keepFirst" then firstIndex g
  else if String.eqb a "keepLast" then lastIndex g
  else firstIndex g.

(** [initialResolutions] of [checkForCsvDuplicates]. *)
Definition initialResolutions (bulkDuplicateAction : string)
    (found : list DuplicateGroup) : Resolutions :=
  fold_left (fun acc g =>
               JS.set acc (key g)
                 (mkRes (Some bulkDuplicateAction)
                        (bulkIndex bulkDuplicateAction g) None))
            found [].

(** The part of the component state the resolution engine works on. *)
Record DedupState : Type := mkDedup {
  csvDuplicates : list DuplicateGroup;
  csvDuplicateResolutions : Resolutions;
  bulkDuplicateAction : string
}.

Definition initialDedup : DedupState := mkDedup [] [] "keepFirst".

(** [checkForCsvDuplicates]: the new state and the returned flag. *)
Definition checkForCsvDuplicates (mappings : Mappings)
    (mf : DuplicateMatchFields) (data : list Row) (s : DedupState)
  : DedupState * bool :=
  let sel := selectedMatchFields mf in
  match sel with
  | [] => (mkDedup [] [] (bulkDuplicateAction s), false)
  | _ :: _ =>
      let found := csvDuplicatesFound mappings sel data in
      match found with
      | [] => (mkDedup [] (csvDuplicateResolutions s) (bulkDuplicateAction s),
               false)
      | _ :: _ =>
          (mkDedup found
                   (initialResolutions (bulkDuplicateAction s) found)
                   (bulkDuplicateAction s), true)
      end
  end.

(** The bulk selector's [onValueChange]. *)
Definition bulkActionChange (v : string) (s : DedupState) : DedupState :=
  if negb (String.eqb v "merge") then
    mkDedup (csvDuplicates s)
            (fold_left (fun acc g =>
                          JS.set acc (key g) (mkRes (Some v) (bulkIndex v g) None))
                       (csvDuplicates s) (csvDuplicateResolutions s))
            v
  else mkDedup (csvDuplicates s) (csvDuplicateResolutions s) v.

(** [a || b] on numbers: [0] is falsy. *)
Definition orNat (a : option nat) (b : nat) : nat :=
  match a with
  | Some (S n) => S n
  | _ => b
  end.

(** The per-group selector's [onValueChange]. *)
Definition groupActionChange (g : DuplicateGroup) (v : string)
    (prev : Resolutions) : Resolutions :=
  JS.set prev (key g)
    (mkRes (Some v)
       (if String.eqb v "keepFirst" then firstIndex g
        else if String.eqb v "keepLast" then lastIndex g
        else orNat (option_map selectedIndex (JS.get prev (key g)))
                   (firstIndex g))
       None).

(** The radio button of one record: [{...prev[key], selectedIndex}]. *)
Definition selectRecord (g : DuplicateGroup) (index : nat)
    (prev : Resolutions) : Resolutions :=
  JS.set prev (key g)
    (match JS.get prev (key g) with
     | Some r => mkRes (action r) index (mergeFields r)
     | None => mkRes None index None
     end).

(** The merge check box of one field of one record; reading
    [prev[key].mergeFields] of a missing resolution throws ([None]). *)
Definition setMergeField (g : DuplicateGroup) (f : field) (recordIndex : nat)
    (prev : Resolutions) : option Resolutions :=
  match JS.get prev (key g) with
  | Some r =>
      Some (JS.set prev (key g)
              (mkRes (action r) (selectedIndex r)
                 (Some (JS.set (match mergeFields r with
                                | Some m => m
                                | None => []
                                end) (field_name f) recordIndex))))
  | None => None
  end.

(** [handleCsvDuplicateResolution(key, selectedIndex)]. *)
Definition handleCsvDuplicateResolution (k : string) (index : nat)
    (prev : Resolutions) : Resolutions :=
  JS.set prev k
    (mkRes (Some "keep") index
       (match JS.get prev k with
        | Some r => mergeFields r
        | None => None
        end)).

(** The user actions wired to the duplicate-resolution screen. *)
Inductive DedupEvent : Type :=
| Recheck (mappings : Mappings) (mf : DuplicateMatchFields) (data : list Row)
| BulkAction (v : string)
| GroupAction (g : DuplicateGroup) (v : string)
| SelectRecord (g : DuplicateGroup) (index : nat)
| MergeField (g : DuplicateGroup) (f : field) (recordIndex : nat).

(** One step of the screen.  The selectors offer the four actions only,
    and the per-group controls exist for the displayed groups only. *)
Inductive dedupStep : DedupState -> DedupEvent -> DedupState -> Prop :=
| step_recheck s mappings mf data :
    dedupStep s (Recheck mappings mf data)
              (fst (checkForCsvDuplicates mappings mf data s))
| step_bulk s v :
    isDuplicateAction v = true ->
    dedupStep s (BulkAction v) (bulkActionChange v s)
| step_group s g v :
    In g (csvDuplicates s) ->
    isDuplicateAction v = true ->
    dedupStep s (GroupAction g v)
              (mkDedup (csvDuplicates s)
                       (groupActionChange g v (csvDuplicateResolutions s))
                       (bulkDuplicateAction s))
| step_select s g index :
    In g (csvDuplicates s) ->
    dedupStep s (SelectRecord g index)
              (mkDedup (csvDuplicates s)
                       (selectRecord g index (csvDuplicateResolutions s))
                       (bulkDuplicateAction s))
| step_merge s g f recordIndex res' :
    In g (csvDuplicates s) ->
    setMergeField g f recordIndex (csvDuplicateResolutions s) = Some res' ->
    dedupStep s (MergeField g f recordIndex)
              (mkDedup (csvDuplicates s) res' (bulkDuplicateAction s)).

Inductive dedupReachable : DedupState -> Prop :=
| reach_init : dedupReachable initialDedup
| reach_step s e s' :
    dedupReachable s -> dedupStep s e s' -> dedupReachable s'.

(** Every stored resolution holds one of the four actions. *)
Definition actionsValid (res : Resolutions) : Prop :=
  forall k r, JS.get res k = Some r ->
    exists a, action r = Some a /\ isDuplicateAction a = true.

(** Every displayed group has a stored resolution. *)
Definition covered (s : DedupState) : Prop :=
  forall g, In g (csvDuplicates s) ->
    JS.get (csvDuplicateResolutions s) (key g) <> None.

(** The invariant of the duplicates screen. *)
Definition dedupInv (s : DedupState) : Prop :=
  isDuplicateAction (bulkDuplicateAction s) = true
  /\ actionsValid (csvDuplicateResolutions s)
  /\ covered s.

(** [find] of the group that row [index] belongs to. *)
Definition findGroup (groups : list DuplicateGroup) (index : nat)
  : option DuplicateGroup :=
  find (isMember index) groups.

(** The predicate of the [deduplicatedData] filter in [checkForDuplicates]. *)
Definition deduplicatedKeep (groups : list DuplicateGroup) (res : Resolutions)
    (index : nat) : bool :=
  match findGroup groups index with
  | None => true
  | Some duplicateGroup =>
      match JS.get res (key duplicateGroup) with
      | None => true
      | Some resolution =>
          match action resolution with
          | Some "merge" => Nat.eqb (firstIndex duplicateGroup) index
          | _ => Nat.eqb (selectedIndex resolution) index
          end
      end
  end.

Definition deduplicatedData (groups : list DuplicateGroup) (res : Resolutions)
    (data : list Row) : list Row :=
  map snd (filter (fun ir => deduplicatedKeep groups res (fst ir)) (indexed data)).

(** The [keep] decision of [rowDecisions] in [handleImport]. *)
Definition keepDecision (groups : list DuplicateGroup) (res : Resolutions)
    (index : nat) : bool :=
  match findGroup groups index with
  | None => true
  | Some duplicateGroup =>
      match JS.get res (key duplicateGroup) with
      | None => Nat.eqb (firstIndex duplicateGroup) index
      | Some resolution => Nat.eqb (selectedIndex resolution) index
      end
  end.

(** [keepIndices], in increasing order. *)
Definition keepIndices (groups : list DuplicateGroup) (res : Resolutions)
    (data : list Row) : list nat :=
  filter (keepDecision groups res) (seq 0 (List.length data)).

(** The summary card of the duplicates screen. *)
Definition recordsToBeKept (groups : list DuplicateGroup) (res : Resolutions)
  : nat :=
  fold_left (fun count g =>
               match option_map action (JS.get res (key g)) with
               | Some (Some "skip") => count
               | _ => count + 1
               end) groups 0.

Definition recordsToBeSkipped (groups : list DuplicateGroup) (res : Resolutions)
  : nat :=
  fold_left (fun count g =>
               match option_map action (JS.get res (key g)) with
               | Some (Some "skip") => count + List.length (records g)
               | _ => count + List.length (records g) - 1
               end) groups 0.

(** The value shown for [f] in the "Merged Result Preview" of a group. *)
Definition mergedPreview (g : DuplicateGroup) (r : CsvDuplicateResolution)
    (f : field) : option string :=
  match mergeFields r with
  | Some m =>
      match JS.get m (field_name f) with
      | Some selectedRecordIndex =>
          option_map (fun r => getField f (fields r))
                     (nth_error (records g) selectedRecordIndex)
      | None => Some "(not selected)"
      end
  | None => Some "(not selected)"
  end.

(* ================================================================== *)
(** ** Remote duplicate lookup ([lib/airtable.ts]) *)

Record AppRecord : Type := mkAppRecord {
  id : string;
  r_appName : string;
  r_appId : string;
  r_developer : string;
  r_category : string;
  r_companyWebsite : string;
  r_companyLinkedinUrl : string;
  r_sensorTowerId : string;
  r_googlePlayId : string;
  r_developerId : string;
  campaignIds : list string;
  sequenceName : string
}.

(** The outcome of one awaited lookup: a thrown error or the records. *)
Inductive LookupResult : Type :=
| LookupError (message : string)
| Found (found : list AppRecord).

(** The remote store: the answer to the [n]-th lookup of a batch for a
    given filter formula ([base(tableName).select({filterByFormula}).all()]). *)
Definition Remote : Type := nat -> string -> LookupResult.

(** [value.replace(/'/g, "\\'")]. *)
Fixpoint escapeValue (v : string) : string :=
  match v with
  | EmptyString => EmptyString
  | String c v' =>
      if Ascii.eqb c "'"%char then String "\"%char (String c (escapeValue v'))
      else String c (escapeValue v')
  end.

Definition condition (column v : string) : list string :=
  if JS.truthy v then ["{" ++ column ++ "}='" ++ escapeValue v ++ "'"] else [].

Definition matchConditions (a : AppData) : list string :=
  (condition "App Name" (d_appName a)
   ++ condition "App ID" (d_appId a)
   ++ condition "Google Play ID" (d_googlePlayId a)
   ++ condition "Sensor Tower ID" (d_sensorTowerId a))%list.

Definition filterFormula (campaignId : string) (conds : list string) : string :=
  let campaignCondition :=
    "FIND('" ++ escapeValue campaignId ++ "', {Campaign ID (from Sequence Name)})" in
  let matchFieldsCondition := "OR(" ++ JS.join "," conds ++ ")" in
  "AND(" ++ campaignCondition ++ "," ++ matchFieldsCondition ++ ")".

(** [findAppDuplicates(appData, campaignId)] as the [n]-th lookup.
    [configured] says whether the API key and base id are present
    ([initAirtable] throws otherwise). *)
Definition findAppDuplicates (configured : bool) (remote : Remote) (n : nat)
    (a : AppData) (campaignId : option string) : LookupResult :=
  if negb configured then LookupError "Airtable API key or Base ID is missing"
  else
    match campaignId with
    | None => Found []
    | Some c =>
        if negb (JS.truthy c) then Found []
        else
          match matchConditions a with
          | [] => Found []
          | conds => remote n (filterFormula c conds)
          end
    end.

(** One entry of [duplicatesFound]. *)
Record RemoteMatch : Type := mkMatch {
  importData : AppData;
  duplicates : list AppRecord;
  m_matchedOn : list string
}.

Definition matchedFields (a : AppData) (potentialDuplicates : list AppRecord)
  : list string :=
  ((if existsb (fun dup => String.eqb (r_appName dup) (d_appName a))
               potentialDuplicates then ["appName"] else [])
   ++ (if existsb (fun dup => String.eqb (r_appId dup) (d_appId a))
                  potentialDuplicates then ["appId"] else [])
   ++ (if existsb (fun dup => String.eqb (r_googlePlayId dup) (d_googlePlayId a))
                  potentialDuplicates then ["googlePlayId"] else [])
   ++ (if existsb (fun dup => String.eqb (r_sensorTowerId dup) (d_sensorTowerId a))
                  potentialDuplicates then ["sensorTowerId"] else []))%list.

(** The state of the per-row loop of [checkForDuplicates]: the number of
    lookups issued, [duplicatesFound], and what [console.error] received. *)
Record LoopState : Type := mkLoop {
  lookups : nat;
  duplicatesFound : list RemoteMatch;
  errorLog : list string
}.

Definition errorLine (a : AppData) (message : string) : string :=
  "Error checking duplicates for " ++ d_appName a ++ ": " ++ message.

(** The body of [for (const row of deduplicatedData)]: the [try] pushes a
    match when the lookup returns records, the [catch] only logs. *)
Definition checkRow (configured : bool) (remote : Remote)
    (recordId : option string) (mappings : Mappings)
    (st : LoopState) (row : Row) : LoopState :=
  let appData := formatRow mappings row in
  match findAppDuplicates configured remote (lookups st) appData recordId with
  | Found potentialDuplicates =>
      match potentialDuplicates with
      | [] => mkLoop (S (lookups st)) (duplicatesFound st) (errorLog st)
      | _ :: _ =>
          mkLoop (S (lookups st))
                 (duplicatesFound st
                  ++ [mkMatch appData potentialDuplicates
                              (matchedFields appData potentialDuplicates)])%list
                 (errorLog st)
      end
  | LookupError message =>
      mkLoop (S (lookups st)) (duplicatesFound st)
             (errorLog st ++ [errorLine appData message])%list
  end.

Definition checkRows (configured : bool) (remote : Remote)
    (recordId : option string) (mappings : Mappings)
    (st : LoopState) (rows : list Row) : LoopState :=
  fold_left (checkRow configured remote recordId mappings) rows st.

(* ================================================================== *)
(** ** Remote resolution engine *)

Inductive FieldResolution : Type := Existing | Imported | Merged.

Inductive RemoteAction : Type := Keep | Replace | Merge.

(** [fieldResolutions] is absent ([None]) in an entry created by
    [handleDuplicateResolution] for an id that had none. *)
Record DuplicateResolution : Type := mkRemoteRes {
  r_action : RemoteAction;
  fieldResolutions : option (JS.obj FieldResolution)
}.

Definition RemoteResolutions : Type := JS.obj DuplicateResolution.

(** The [fieldResolutions] literal of a newly found duplicate. *)
Definition defaultFieldResolutions : JS.obj FieldResolution :=
  map (fun f => (field_name f, Existing)) all_fields.

(** [initialResolutions] of [checkForDuplicates]. *)
Definition initialRemoteResolutions (found : list RemoteMatch)
  : RemoteResolutions :=
  fold_left (fun acc dup =>
               fold_left (fun acc' duplicate =>
                            JS.set acc' (id duplicate)
                              (mkRemoteRes Keep (Some defaultFieldResolutions)))
                         (duplicates dup) acc)
            found [].

(** [handleDuplicateResolution(id, action)]. *)
Definition handleDuplicateResolution (i : string) (a : RemoteAction)
    (prev : RemoteResolutions) : RemoteResolutions :=
  JS.set prev i
    (mkRemoteRes a (match JS.get prev i with
                    | Some r => fieldResolutions r
                    | None => None
                    end)).

(** [handleFieldResolution(id, field, resolution)]; reading
    [prev[id].fieldResolutions] of a missing entry throws ([None]). *)
Definition handleFieldResolution (i : string) (f : string)
    (resolution : FieldResolution) (prev : RemoteResolutions)
  : option RemoteResolutions :=
  match JS.get prev i with
  | Some r =>
      Some (JS.set prev i
              (mkRemoteRes (r_action r)
                 (Some (JS.set (match fieldResolutions r with
                                | Some fr => fr
                                | None => []
                                end) f resolution))))
  | None => None
  end.

(** The remote part of the component state. *)
Record RemoteState : Type := mkRemote {
  st_duplicates : list RemoteMatch;
  duplicateResolutions : RemoteResolutions
}.

(** [checkForDuplicates]: the new remote state, the returned flag and
    the error log.  Without a record id nothing is looked up. *)
Definition checkForDuplicates (configured : bool) (remote : Remote)
    (recordId : option string) (mappings : Mappings)
    (groups : list DuplicateGroup) (res : Resolutions) (data : list Row)
    (s : RemoteState) : RemoteState * bool * list string :=
  match recordId with
  | None => (s, false, [])
  | Some rid =>
      if negb (JS.truthy rid) then (s, false, [])
      else
        let final :=
          checkRows configured remote recordId mappings (mkLoop 0 [] [])
                    (deduplicatedData groups res data) in
        match duplicatesFound final with
        | [] => (mkRemote [] (duplicateResolutions s), false, errorLog final)
        | found =>
            (mkRemote found (initialRemoteResolutions found), true,
             errorLog final)
        end
  end.

(** A value held by a record handed to [calculateFinalData]: a string, or
    the array [campaignIds]. *)
Inductive jsval : Type :=
| VStr (s : string)
| VArr (l : list string).

Definition jsTruthy (v : option jsval) : bool :=
  match v with
  | None => false
  | Some (VStr s) => JS.truthy s
  | Some (VArr _) => true
  end.

(** What a call can produce: a thrown [TypeError], [null], or an object. *)
Inductive Outcome : Type :=
| Throws
| Null
| Value (o : JS.obj jsval).

(** One iteration of the [forEach] over [fieldResolutions]. *)
Definition applyFieldResolution (importedData : JS.obj jsval)
    (result : JS.obj jsval) (entry : string * FieldResolution) : JS.obj jsval :=
  match snd entry with
  | Imported =>
      match JS.get importedData (fst entry) with
      | Some v => if jsTruthy (Some v) then JS.set result (fst entry) v else result
      | None => result
      end
  | _ => result
  end.

(** [calculateFinalData(existingData, importedData, resolution)]. *)
Definition calculateFinalData (existingData importedData : option (JS.obj jsval))
    (resolution : option DuplicateResolution) : Outcome :=
  match existingData, importedData, resolution with
  | Some existing, Some imported, Some res =>
      match r_action res with
      | Keep => Value existing
      | Replace => Value imported
      | Merge =>
          match fieldResolutions res with
          | Some fr => Value (fold_left (applyFieldResolution imported) fr existing)
          | None => Throws
          end
      end
  | _, _, _ => Null
  end.

(** The records as the objects [calculateFinalData] receives. *)
Definition appDataObj (a : AppData) : JS.obj jsval :=
  map (fun f => (field_name f, VStr (getField f a))) all_fields.

Definition appRecordObj (r : AppRecord) : JS.obj jsval :=
  [ ("id", VStr (id r)); ("appName", VStr (r_appName r));
    ("appId", VStr (r_appId r)); ("developer", VStr (r_developer r));
    ("category", VStr (r_category r));
    ("companyWebsite", VStr (r_companyWebsite r));
    ("companyLinkedinUrl", VStr (r_companyLinkedinUrl r));
    ("sensorTowerId", VStr (r_sensorTowerId r));
    ("googlePlayId", VStr (r_googlePlayId r));
    ("developerId", VStr (r_developerId r));
    ("campaignIds", VArr (campaignIds r));
    ("sequenceName", VStr (sequenceName r)) ].

(* ================================================================== *)
(** ** Domain extraction *)

(** [new URL(url).hostname]: [None] when the constructor throws.  The URL
    parser belongs to the platform and is a parameter of the model. *)
Definition UrlParser : Type := string -> option string.

Fixpoint dropChars (n : nat) (s : string) : string :=
  match n, s with
  | O, _ => s
  | S n', String _ s' => dropChars n' s'
  | S _, EmptyString => EmptyString
  end.

(** Case-insensitive prefix test, for the [i] flag of the expressions. *)
Definition startsWithCI (p s : string) : bool :=
  JS.startsWith p (JS.toLowerCase s).

(** [url.match(/^https?:\/\//i)] succeeds. *)
Definition hasScheme (url : string) : bool :=
  startsWithCI "https://" url || startsWithCI "http://" url.

(** [domain.replace(/^www\./i, '')]. *)
Definition stripWww (domain : string) : string :=
  if startsWithCI "www." domain then dropChars 4 domain else domain.

(** The capture group [([^\/]+)]: the longest run without a slash. *)
Fixpoint nonSlashRun (s : string) : string :=
  match s with
  | EmptyString => EmptyString
  | String c s' =>
      if Ascii.eqb c "/"%char then EmptyString else String c (nonSlashRun s')
  end.

Definition capture (s : string) : option string :=
  match nonSlashRun s with
  | EmptyString => None
  | r => Some r
  end.

Definition orElse {A : Type} (a b : option A) : option A :=
  match a with
  | Some _ => a
  | None => b
  end.

(** [(?:www\.)?([^\/]+)] at the start of [s]: the optional group is tried
    first, then skipped. *)
Definition matchWww (s : string) : option string :=
  orElse (if startsWithCI "www." s then capture (dropChars 4 s) else None)
         (capture s).

(** [(?:https?:\/\/)?(?:www\.)?([^\/]+)] at the start of [s]. *)
Definition matchAt (s : string) : option string :=
  orElse (if startsWithCI "https://" s then matchWww (dropChars 8 s)
          else if startsWithCI "http://" s then matchWww (dropChars 7 s)
          else None)
         (matchWww s).

(** [url.match(/(?:https?:\/\/)?(?:www\.)?([^\/]+)/i)]: group 1 of the
    leftmost match. *)
Fixpoint regexGuess (s : string) : option string :=
  match matchAt s with
  | Some r => Some r
  | None =>
      match s with
      | EmptyString => None
      | String _ s' => regexGuess s'
      end
  end.

(** The URL handed to the parser: [https://] is prefixed when no scheme. *)
Definition withScheme (url : string) : string :=
  if hasScheme url then url else "https://" ++ url.

(** [extractRootDomain(url)]. *)
Definition extractRootDomain (parse : UrlParser) (url : string) : string :=
  if negb (JS.truthy url) then EmptyString
  else
    let url := withScheme url in
    match parse url with
    | Some hostname => stripWww (JS.toLowerCase hostname)
    | None =>
        match regexGuess url with
        | Some m => JS.toLowerCase m
        | None => url
        end
    end.

(** A reader of plain [http(s)://host/...] URLs, used to run the model:
    the text between the scheme and the first slash, lowercased; it
    rejects an empty host. *)
Definition plainHostname : UrlParser :=
  fun url =>
    let rest := if startsWithCI "https://" url then dropChars 8 url
                else if startsWithCI "http://" url then dropChars 7 url
                else EmptyString in
    match nonSlashRun rest with
    | EmptyString => None
    | h => Some (JS.toLowerCase h)
    end.

(* ================================================================== *)
(** ** Finalizer ([handleImport]) *)

(** [AppWithCustomFields]. *)
Record AppWithCustomFields : Type := mkFormatted {
  w_fields : AppData;
  rootDomain : string;
  customfields : option (JS.obj string);
  w_originalIndex : nat
}.

(** [custom_fields] of one kept row: every mapping whose key starts with
    [custom_], filed under the key without that prefix. *)
Definition customFieldsOf (mappings : Mappings) (row : Row) : JS.obj string :=
  fold_left (fun custom_fields e =>
               if JS.startsWith "custom_" (fst e)
               then JS.set custom_fields (dropChars 7 (fst e)) (rowValue row (snd e))
               else custom_fields)
            mappings [].

Definition formatRecord (parse : UrlParser) (mappings : Mappings)
    (row : Row) (i : nat) : AppWithCustomFields :=
  let a := formatRow mappings row in
  let custom_fields := customFieldsOf mappings row in
  {| w_fields := a;
     rootDomain := extractRootDomain parse (d_companyWebsite a);
     customfields := match custom_fields with
                     | [] => None
                     | _ => Some custom_fields
                     end;
     w_originalIndex := i |}.

(** [formattedRecords]: the kept rows, in row order. *)
Definition formattedRecords (parse : UrlParser) (mappings : Mappings)
    (groups : list DuplicateGroup) (res : Resolutions) (data : list Row)
  : list AppWithCustomFields :=
  map (fun ir => formatRecord parse mappings (snd ir) (fst ir))
      (filter (fun ir => keepDecision groups res (fst ir)) (indexed data)).

(** The body of [for (const duplicate of duplicates)]: does this remote
    match belong to [record]? *)
Definition matchesImport (record : AppData) (duplicate : RemoteMatch) : bool :=
  let importData := importData duplicate in
  String.eqb (d_appName importData) (d_appName record)
  || (JS.truthy (d_appId record)
      && String.eqb (d_appId importData) (d_appId record))
  || (JS.truthy (d_googlePlayId record)
      && String.eqb (d_googlePlayId importData) (d_googlePlayId record))
  || (JS.truthy (d_sensorTowerId record)
      && String.eqb (d_sensorTowerId importData) (d_sensorTowerId record)).

(** [inAirtable] of [recordsWithAirtableStatus]. *)
Definition inAirtable (dups : list RemoteMatch) (record : AppWithCustomFields)
  : bool :=
  existsb (matchesImport (w_fields record)) dups.

Definition newApps (dups : list RemoteMatch)
    (records : list AppWithCustomFields) : list AppWithCustomFields :=
  filter (fun r => negb (inAirtable dups r)) records.

Definition unchangedIds (rr : RemoteResolutions) : list string :=
  map fst (filter (fun e => match r_action (snd e) with
                            | Keep => true
                            | _ => false
                            end) rr).

Definition updatedIds (rr : RemoteResolutions) : list string :=
  map fst (filter (fun e => match r_action (snd e) with
                            | Replace | Merge => true
                            | Keep => false
                            end) rr).

(** [webhookData.summary]. *)
Record Summary : Type := mkSummary {
  totalProcessed : nat;
  s_newApps : nat;
  s_updatedApps : nat;
  s_unchangedApps : nat
}.

Definition summary (parse : UrlParser) (mappings : Mappings)
    (groups : list DuplicateGroup) (res : Resolutions) (data : list Row)
    (s : RemoteState) : Summary :=
  let records := formattedRecords parse mappings groups res data in
  {| totalProcessed := List.length records;
     s_newApps := List.length (newApps (st_duplicates s) records);
     s_updatedApps := List.length (updatedIds (duplicateResolutions s));
     s_unchangedApps := List.length (unchangedIds (duplicateResolutions s)) |}.


(* ================================================================== *)
(** ** Sample inputs *)

Definition nl : string := String newline EmptyString.

(** Two data lines with the same app name. *)
Definition twoSameNames : string :=
  "App Name,App ID" ++ nl ++ "A,1" ++ nl ++ "A,2".

(** Two data lines whose values differ but whose composite keys on
    [appName] and [appId] coincide. *)
Definition collidingCells : string :=
  "App Name,App ID" ++ nl ++ "a|appId:b," ++ nl ++ "a,b|appId:".


Definition nameAndId : DuplicateMatchFields :=
  fun f => field_eqb f appName || field_eqb f appId.

(** The duplicates screen for [twoSameNames] under a bulk action. *)
Definition screenFor (bulk : string) : DedupState :=
  let p := parseCSV twoSameNames in
  fst (checkForCsvDuplicates (p_mappings p) defaultMatchFields (p_data p)
         (bulkActionChange bulk initialDedup)).

(** The same screen after "Merge Fields" is chosen for the group and the
    second record's [appId] is ticked. *)
Definition mergedScreen : option DedupState :=
  let s := screenFor "keepFirst" in
  match csvDuplicates s with
  | g :: _ =>
      option_map (fun res => mkDedup (csvDuplicates s) res (bulkDuplicateAction s))
        (setMergeField g appId 1
           (groupActionChange g "merge" (csvDuplicateResolutions s)))
  | [] => None
  end.

Definition remoteTwin (i : string) : AppRecord :=
  mkAppRecord i "A" "" "" "" "" "" "" "" "" [] "".

(** A store that holds two records named like every looked-up app. *)
Definition twoTwins : Remote :=
  fun _ _ => Found [remoteTwin "rec1"; remoteTwin "rec2"].

(** A store whose second lookup of the batch fails. *)
Definition secondLookupFails : Remote :=
  fun n _ => if Nat.eqb n 1 then LookupError "timeout"
             else Found [remoteTwin "rec1"].

(** One imported row. *)
Definition oneName : string := "App Name" ++ nl ++ "A".

(** The resolution every newly found duplicate starts with. *)
Definition defaultResolution : DuplicateResolution :=
  mkRemoteRes Keep (Some defaultFieldResolutions).

(** An imported row named "B" with a website. *)
Definition importedB : AppData :=
  mkAppData "B" "" "" "" "" "b.example" "" "" "" "".

(** A merge in which only [appName] is taken from the import. *)
Definition onlyNameImported : JS.obj FieldResolution :=
  JS.set defaultFieldResolutions "appName" Imported.

(* ================================================================== *)
(** ** Server-side analysis ([processImport]) *)

(** An item of [formattedData]: the mapped fields without [country]. *)
Record ImportItem : Type := mkItem {
  i_appName : string;
  i_appId : string;
  i_developer : string;
  i_category : string;
  i_companyWebsite : string;
  i_companyLinkedinUrl : string;
  i_sensorTowerId : string;
  i_googlePlayId : string;
  i_developerId : string
}.

Definition formatItem (mappings : Mappings) (row : Row) : ImportItem :=
  {| i_appName := cell row mappings "appName";
     i_appId := cell row mappings "appId";
     i_developer := cell row mappings "developer";
     i_category := cell row mappings "category";
     i_companyWebsite := cell row mappings "companyWebsite";
     i_companyLinkedinUrl := cell row mappings "companyLinkedinUrl";
     i_sensorTowerId := cell row mappings "sensorTowerId";
     i_googlePlayId := cell row mappings "googlePlayId";
     i_developerId := cell row mappings "developerId" |}.

(** [appItemSchema.safeParse(item).success]: the fields are strings and
    [recordId], [resolutionAction] are absent, so only
    [appName: z.string().min(1)] can fail. *)
Definition appItemSchema_ok (item : ImportItem) : bool :=
  Nat.leb 1 (String.length (i_appName item)).

(** [`${n}`] for a number that is a natural. *)
Definition showNat (n : nat) : string :=
  NilEmpty.string_of_uint (Nat.to_uint n).

Record ImportResult : Type := mkImportResult {
  success : bool;
  message : string;
  analyzed : nat;
  ir_duplicatesFound : nat;
  errors : list string
}.

(** [validationResults]: the indices of the items the schema rejects. *)
Definition validationResults (formattedData : list ImportItem)
  : list (nat * ImportItem) :=
  filter (fun ii => negb (appItemSchema_ok (snd ii))) (indexed formattedData).

(** The debug [console.log] of [processImport] reads
    [Object.entries(resolution.fieldResolutions)] of every resolution: it
    throws when one of them has no [fieldResolutions]. *)
Definition resolutionsLoggable (rr : RemoteResolutions) : bool :=
  forallb (fun e => match fieldResolutions (snd e) with
                    | Some _ => true
                    | None => false
                    end) rr.

(** [processImport(data, mappings, duplicateResolutions)].  [issuesJSON]
    is [JSON.stringify(result.error.flatten())] of the validation library
    and [typeError] the message of the engine's [TypeError]. *)
Definition processImport (issuesJSON : ImportItem -> string) (typeError : string)
    (data : list Row) (mappings : Mappings) (rr : RemoteResolutions)
  : ImportResult :=
  let formattedData := map (formatItem mappings) data in
  match validationResults formattedData with
  | (_ :: _) as failed =>
      {| success := false;
         message := "Validation failed for some records";
         analyzed := List.length formattedData;
         ir_duplicatesFound := 0;
         errors := map (fun r => "Row " ++ showNat (fst r + 1) ++ ": "
                                  ++ issuesJSON (snd r)) failed |}
  | [] =>
      if resolutionsLoggable rr then
        let duplicatesCount := List.length (JS.keys rr) in
        {| success := true;
           message := "Successfully analyzed "
                      ++ showNat (List.length formattedData)
                      ++ " records. Found " ++ showNat duplicatesCount
                      ++ " potential duplicates.";
           analyzed := List.length formattedData;
           ir_duplicatesFound := duplicatesCount;
           errors := [] |}
      else
        {| success := false;
           message := "Analysis failed";
           analyzed := 0;
           ir_duplicatesFound := 0;
           errors := [typeError] |}
  end.

(* ================================================================== *)
(** ** Inline correction ([handleDataCorrection]) *)

(** A property value of an invalid row: a cell of the CSV row, or one of
    the two properties [isValid] and [errors] added by [validateData]. *)
Inductive cellv : Type :=
| CUndefined
| CString (s : string)
| CBool (b : bool)
| CObject.

Definition InvalidRow : Type := JS.obj cellv.

Definition cellOf (v : option string) : cellv :=
  match v with
  | Some s => CString s
  | None => CUndefined
  end.

(** [{...row, isValid: false, errors: fieldErrors}]. *)
Definition markInvalid (row : Row) : InvalidRow :=
  JS.set (JS.set (map (fun e => (fst e, cellOf (snd e))) row)
                 "isValid" (CBool false))
         "errors" CObject.

(** [invalidData] as [validateData] stores it. *)
Definition invalidData (mappings : Mappings) (data : list Row)
  : list InvalidRow :=
  map markInvalid (invalidRows mappings data).

(** [o[k]] of an invalid row and of a data row, as values. *)
Definition readInvalid (o : InvalidRow) (k : string) : cellv :=
  match JS.get o k with
  | Some v => v
  | None => CUndefined
  end.

Definition readData (row : Row) (k : string) : cellv :=
  match JS.get row k with
  | Some v => cellOf v
  | None => CUndefined
  end.

(** [a === b]; the [errors] object is equal to nothing else. *)
Definition strictEq (a b : cellv) : bool :=
  match a, b with
  | CUndefined, CUndefined => true
  | CString s, CString t => String.eqb s t
  | CBool x, CBool y => Bool.eqb x y
  | _, _ => false
  end.

(** [arr.findIndex(p)]: [None] is [-1]. *)
Fixpoint findIndex {A : Type} (p : A -> bool) (l : list A) : option nat :=
  match l with
  | [] => None
  | x :: l' => if p x then Some 0 else option_map S (findIndex p l')
  end.

(** [arr[i] = f(arr[i])] for an index within the array. *)
Fixpoint updateAt {A : Type} (i : nat) (f : A -> A) (l : list A) : list A :=
  match l, i with
  | [], _ => []
  | x :: l', O => f x :: l'
  | x :: l', S i' => x :: updateAt i' f l'
  end.

(** [handleDataCorrection(index, field, value)] on [invalidData] and
    [data]; [None] is the [TypeError] of writing to [invalidData[index]]
    when there is no such row. *)
Definition handleDataCorrection (mappings : Mappings) (index : nat)
    (fld value : string) (invalid : list InvalidRow) (data : list Row)
  : option (list InvalidRow * list Row) :=
  let target := JS.prop_key (JS.get mappings fld) in
  let nameKey := JS.prop_key (JS.get mappings "appName") in
  match nth_error invalid index with
  | None => None
  | Some _ =>
      let newInvalidData :=
        updateAt index (fun o => JS.set o target (CString value)) invalid in
      let wanted := match nth_error newInvalidData index with
                    | Some o => readInvalid o nameKey
                    | None => CUndefined
                    end in
      match findIndex (fun item => strictEq (readData item nameKey) wanted) data with
      | Some dataIndex =>
          Some (newInvalidData,
                updateAt dataIndex (fun row => JS.set row target (Some value)) data)
      | None => Some (newInvalidData, data)
      end
  end.

(* ================================================================== *)
(** ** Match-field selection *)

(** [arr.sort()] on strings: the default order compares code units. *)
Fixpoint insertSorted (x : string) (l : list string) : list string :=
  match l with
  | [] => [x]
  | y :: l' => if String.leb x y then x :: l else y :: insertSorted x l'
  end.

Definition sortStrings (l : list string) : list string :=
  fold_right insertSorted [] l.

(** [getMatchFieldsKey(fields)]: the selected names, sorted, joined by
    commas. *)
Definition getMatchFieldsKey (mf : DuplicateMatchFields) : string :=
  JS.join "," (sortStrings (map field_name (selectedMatchFields mf))).

(** [handleMatchFieldChange(field, checked)]: [checked] is [true],
    [false] or ["indeterminate"] ([None]). *)
Definition handleMatchFieldChange (f : field) (checked : option bool)
    (prev : DuplicateMatchFields) : DuplicateMatchFields :=
  fun g => if field_eqb g f
           then match checked with
                | Some true => true
                | _ => false
                end
           else prev g.

Fixpoint hasChar (c : ascii) (s : string) : bool :=
  match s with
  | EmptyString => false
  | String x s' => Ascii.eqb x c || hasChar c s'
  end.

(* ================================================================== *)
(** ** Custom fields of updated and unchanged records *)

(** A value read from an object whose properties are not all strings:
    [undefined], a string, or anything else (an object, an array, a
    function), which is truthy. *)
Inductive anyval : Type :=
| AUndefined
| AString (s : string)
| AOther.

(** [v || ""]. *)
Definition orEmptyAny (v : anyval) : anyval :=
  match v with
  | AUndefined => AString EmptyString
  | AString s => AString s
  | AOther => AOther
  end.

(** What [Object.prototype] answers for a property name ([AUndefined]
    for a name it does not have); it belongs to the platform. *)
Definition Prototype : Type := string -> anyval.

(** [o[k]] on an object with own properties [own]: an own property
    first, else the prototype's. *)
Definition readProperty (proto : Prototype) (own : JS.obj anyval) (k : string)
  : anyval :=
  match JS.get own k with
  | Some v => v
  | None => proto k
  end.

(** The object literal [appData] that [checkForDuplicates] stores as
    [importData]: the ten canonical fields, whatever their values. *)
Definition importObject (values : field -> anyval) : JS.obj anyval :=
  map (fun f => (field_name f, values f)) all_fields.

(** The states of that object: under [replace], [calculateFinalData]
    returns it as [finalData], and [handleImport] then writes
    [rootDomain] and [customfields] into it, once per updated record
    matched by the row and again on every further import. *)
Inductive importObjectState (values : field -> anyval)
  : JS.obj anyval -> Prop :=
| stored : importObjectState values (importObject values)
| rootDomainWritten own domain :
    importObjectState values own ->
    importObjectState values (JS.set own "rootDomain" (AString domain))
| customfieldsWritten own v :
    importObjectState values own ->
    importObjectState values (JS.set own "customfields" v).

(** [custom_fields] as built for [unchangedApps] and [updatedApps]: one
    entry per [custom_] mapping, filed under the header and read from
    [importedData] by that header.  An assignment to [__proto__] creates
    no entry.  The entries are filed in the order of the mapping, which
    JavaScript follows but for keys that look like array indices. *)
Definition remoteCustomFields (proto : Prototype) (mappings : Mappings)
    (importedData : option (JS.obj anyval)) : JS.obj anyval :=
  match importedData with
  | None => []
  | Some imported =>
      fold_left (fun custom_fields e =>
                   if JS.startsWith "custom_" (fst e)
                   then if String.eqb (snd e) "__proto__" then custom_fields
                        else JS.set custom_fields (snd e)
                               (orEmptyAny (readProperty proto imported (snd e)))
                   else custom_fields)
                mappings []
  end.

(** A prototype that has [toString] and nothing else of interest. *)
Definition someProto : Prototype :=
  fun k => if String.eqb k "toString" then AOther else AUndefined.

(** [!!initialMappings["appName"]] of [parseCSV] and the test
    [!mappings["appName"]] that guards the mapping step. *)
Definition hasRequiredMappings (m : Mappings) : bool :=
  match JS.get m "appName" with
  | Some header => JS.truthy header
  | None => false
  end.

(** The number of occurrences of a character in a text. *)
Fixpoint countChar (c : ascii) (s : string) : nat :=
  match s with
  | EmptyString => 0
  | String x s' => (if Ascii.eqb x c then 1 else 0) + countChar c s'
  end.

(** A file with a column that has no canonical label. *)
Definition withNotes : string :=
  "App Name,Notes" ++ nl ++ "A,remember me".

(** A file whose only data line has no app name. *)
Definition namelessRow : string := "App Name,App ID" ++ nl ++ ",1".

(** The state after typing "Fixed" in the name box of its invalid row. *)
Definition namelessCorrected : option (list InvalidRow * list Row) :=
  let p := parseCSV namelessRow in
  handleDataCorrection (p_mappings p) 0 "appName" "Fixed"
    (invalidData (p_mappings p) (p_data p)) (p_data p).

(* ================================================================== *)
(** * Properties *)

(** ** Objects *)

Section ObjFacts.
Context {V : Type}.
Implicit Types (o : JS.obj V) (k : string) (v : V).

Lemma get_set_same o k v : JS.get (JS.set o k v) k = Some v.
Proof.
  induction o as [|[k' v'] o IH]; simpl.
  - now rewrite String.eqb_refl.
  - destruct (String.eqb k' k) eqn:E; simpl; rewrite E; auto.
Qed.

Lemma get_set_other o k k' v :
  k <> k' -> JS.get (JS.set o k v) k' = JS.get o k'.
Proof.
  intros Hne. induction o as [|[k0 v0] o IH]; simpl.
  - destruct (String.eqb k k') eqn:E; auto.
    apply String.eqb_eq in E. contradiction.
  - destruct (String.eqb k0 k) eqn:E; simpl.
    + apply String.eqb_eq in E. subst k0.
      destruct (String.eqb k k') eqn:E'; auto.
      apply String.eqb_eq in E'. contradiction.
    + now rewrite IH.
Qed.

Lemma in_set o k v e :
  In e (JS.set o k v) -> e = (k, v) \/ In e o.
Proof.
  induction o as [|[k' v'] o IH]; simpl.
  - intros [H|[]]; auto.
  - destruct (String.eqb k' k) eqn:E; simpl.
    + apply String.eqb_eq in E. subst k'. intros [H|H]; auto.
    + intros [H|H]; auto. destruct (IH H); auto.
Qed.

Lemma keys_set_in o k v :
  In k (JS.keys o) -> JS.keys (JS.set o k v) = JS.keys o.
Proof.
  unfold JS.keys. induction o as [|[k' v'] o IH]; simpl; [tauto|].
  destruct (String.eqb k' k) eqn:E; simpl; auto.
  intros [H|H].
  - subst k'. now rewrite String.eqb_refl in E.
  - now rewrite IH.
Qed.

Lemma keys_set_new o k v :
  ~ In k (JS.keys o) -> JS.keys (JS.set o k v) = (JS.keys o ++ [k])%list.
Proof.
  unfold JS.keys. induction o as [|[k' v'] o IH]; simpl; auto.
  intros Hn. destruct (String.eqb k' k) eqn:E; simpl.
  - apply String.eqb_eq in E. subst k'. tauto.
  - rewrite IH; auto.
Qed.

Lemma wf_nil : JS.wf (@nil (string * V)).
Proof. constructor. Qed.

Lemma wf_set o k v : JS.wf o -> JS.wf (JS.set o k v).
Proof.
  unfold JS.wf. intros Hwf.
  destruct (in_dec string_dec k (JS.keys o)) as [Hin|Hnin].
  - now rewrite keys_set_in.
  - rewrite keys_set_new by assumption.
    apply NoDup_app; auto.
    + constructor; [tauto | constructor].
    + intros x Hx [Hk|[]]. subst x. contradiction.
Qed.

Lemma get_in o k v : JS.get o k = Some v -> In (k, v) o.
Proof.
  induction o as [|[k' v'] o IH]; simpl; [discriminate|].
  destruct (String.eqb k' k) eqn:E.
  - apply String.eqb_eq in E. subst k'. intros [= ->]. now left.
  - intros H. right. auto.
Qed.

Lemma get_none o k : JS.get o k = None -> ~ In k (JS.keys o).
Proof.
  unfold JS.keys. induction o as [|[k' v'] o IH]; simpl; [tauto|].
  destruct (String.eqb k' k) eqn:E; [discriminate|].
  intros H [Hk|Hk]; [|now apply IH].
  subst k'. now rewrite String.eqb_refl in E.
Qed.

Lemma in_get o k v : JS.wf o -> In (k, v) o -> JS.get o k = Some v.
Proof.
  unfold JS.wf, JS.keys. induction o as [|[k' v'] o IH]; simpl; [tauto|].
  intros Hwf [H|H].
  - injection H as -> ->. now rewrite String.eqb_refl.
  - inversion Hwf as [|? ? Hnin Hwf']; subst.
    destruct (String.eqb k' k) eqn:E; auto.
    apply String.eqb_eq in E. subst k'.
    exfalso. apply Hnin. now apply (in_map fst) in H.
Qed.

Lemma wf_filter o (p : string * V -> bool) : JS.wf o -> JS.wf (filter p o).
Proof.
  unfold JS.wf, JS.keys. induction o as [|e o IH]; simpl; auto.
  intros Hwf. inversion Hwf as [|? ? Hnin Hwf']; subst.
  destruct (p e); simpl; auto.
  constructor; auto.
  intros Hin. apply Hnin.
  apply in_map_iff in Hin as [x [Hx Hin]].
  apply filter_In in Hin as [Hin _].
  rewrite <- Hx. now apply in_map.
Qed.
End ObjFacts.

(** ** CSV parser: the line after a final newline *)

Lemma split_not_nil sep s : JS.split sep s <> [].
Proof.
  destruct s as [|c s]; simpl; [discriminate|].
  destruct (Ascii.eqb c sep); [discriminate|].
  destruct (JS.split sep s); discriminate.
Qed.

Lemma split_trailing_sep sep s :
  JS.split sep (s ++ String sep EmptyString)
  = (JS.split sep s ++ [EmptyString])%list.
Proof.
  induction s as [|c s IH]; simpl.
  - now rewrite Ascii.eqb_refl.
  - destruct (Ascii.eqb c sep); [now rewrite IH|].
    rewrite IH.
    destruct (JS.split sep s) eqn:E; [now apply split_not_nil in E|].
    reflexivity.
Qed.

Lemma formatRow_appName mappings row :
  d_appName (formatRow mappings row) = cell row mappings "appName".
Proof. reflexivity. Qed.

(** Every value stored by [parseLine] for the empty line is [""] or absent. *)
Lemma parseLine_empty_values headers :
  Forall (fun e => snd e = Some EmptyString \/ snd e = None)
         (parseLine headers EmptyString).
Proof.
  unfold parseLine. simpl JS.split.
  assert (Hgen : forall (l : list (nat * string)) (o : Row),
             Forall (fun e => snd e = Some EmptyString \/ snd e = None) o ->
             Forall (fun e => snd e = Some EmptyString \/ snd e = None)
                    (fold_left
                       (fun obj ih =>
                          JS.set obj (snd ih)
                            (option_map JS.trim
                               (nth_error [EmptyString] (fst ih)))) l o)).
  { induction l as [|[i h] l IH]; intros o Ho; simpl; auto.
    apply IH. apply Forall_forall. intros e He.
    apply in_set in He as [->|He].
    - simpl. destruct i as [|[|i]]; simpl; auto.
    - rewrite Forall_forall in Ho. auto. }
  apply Hgen. constructor.
Qed.

Lemma rowValue_empty_line headers h :
  rowValue (parseLine headers EmptyString) h = EmptyString.
Proof.
  unfold rowValue.
  destruct (JS.get (parseLine headers EmptyString) h) as [[v|]|] eqn:E; auto.
  apply get_in in E.
  pose proof (parseLine_empty_values headers) as Hall.
  rewrite Forall_forall in Hall. apply Hall in E. simpl in E.
  destruct E as [E|E]; congruence.
Qed.

(** C10. A file whose text ends with a newline yields one row more than
    the same text without it: the row of the empty last line.  Every cell
    of that row is [""] or [undefined], every mapped field reads as [""],
    and [validateData] rejects it (empty [appName]). *)
Theorem parseCSV_trailing_newline (body : string) :
  let p := parseCSV (body ++ nl) in
  let extra := parseLine (p_headers p) EmptyString in
  p_headers p = p_headers (parseCSV body) /\
  p_data p = (p_data (parseCSV body) ++ [extra])%list /\
  (forall h v, JS.get extra h = Some v -> v = Some EmptyString \/ v = None) /\
  (forall f, cell extra (p_mappings p) f = EmptyString) /\
  d_appName (formatRow (p_mappings p) extra) = EmptyString /\
  In extra (invalidRows (p_mappings p) (p_data p)) /\
  validateData (p_mappings p) (p_data p) = false.
Proof.
  intros p extra.
  assert (Hlines : JS.split newline (body ++ nl)
                   = (JS.split newline body ++ [EmptyString])%list)
    by apply split_trailing_sep.
  assert (Hh : p_headers p = p_headers (parseCSV body)).
  { unfold p, parseCSV. simpl. rewrite Hlines.
    destruct (JS.split newline body) eqn:E; [now apply split_not_nil in E|].
    reflexivity. }
  assert (Hd : p_data p = (p_data (parseCSV body) ++ [extra])%list).
  { unfold extra. rewrite Hh. unfold p, parseCSV. simpl. rewrite Hlines.
    destruct (JS.split newline body) eqn:E; [now apply split_not_nil in E|].
    simpl. now rewrite map_app. }
  assert (Hcell : forall f, cell extra (p_mappings p) f = EmptyString).
  { intros f. unfold cell, extra. apply rowValue_empty_line. }
  assert (Hin : In extra (invalidRows (p_mappings p) (p_data p))).
  { unfold invalidRows. apply filter_In. split.
    - rewrite Hd. apply in_or_app. right. now left.
    - unfold appSchema_ok. rewrite formatRow_appName, Hcell. reflexivity. }
  repeat split; auto.
  - intros h v Hget. apply get_in in Hget.
    pose proof (parseLine_empty_values (p_headers p)) as Hall.
    rewrite Forall_forall in Hall. apply (Hall (h, v)). exact Hget.
  - rewrite formatRow_appName. apply Hcell.
  - unfold validateData.
    destruct (invalidRows (p_mappings p) (p_data p)); [destruct Hin|reflexivity].
Qed.

(** ** Column mapper: one header, at most one slot *)


Lemma slots_at_most_one (m : Mappings) h :
  NoDup (JS.values m) -> List.length (slots m h) <= 1.
Proof.
  unfold slots, JS.values. rewrite length_map.
  induction m as [|[k v] m IH]; simpl; intros Hnd; [lia|].
  inversion Hnd as [|? ? Hv Hnd']; subst.
  destruct (String.eqb v h) eqn:E; simpl; auto.
  apply String.eqb_eq in E. subst v.
  assert (Hnone : filter (fun e => String.eqb (snd e) h) m = []).
  { destruct (filter (fun e => String.eqb (snd e) h) m) as [|e l] eqn:Ef; auto.
    assert (Hin : In e (filter (fun e => String.eqb (snd e) h) m))
      by (rewrite Ef; now left).
    apply filter_In in Hin as [Hin He]. apply String.eqb_eq in He.
    exfalso. apply Hv. rewrite <- He. now apply in_map. }
  rewrite Hnone. simpl. lia.
Qed.

Lemma slots_exactly_one (m : Mappings) k h :
  NoDup (JS.values m) -> In (k, h) m -> List.length (slots m h) = 1.
Proof.
  intros Hnd Hin.
  pose proof (slots_at_most_one m h Hnd) as Hle.
  assert (Hin' : In k (slots m h)).
  { unfold slots. apply in_map_iff. exists (k, h). split; auto.
    apply filter_In. split; auto. simpl. apply String.eqb_refl. }
  destruct (slots m h); [destruct Hin' | simpl in *; lia].
Qed.

(** Automatic mapping files every header under [autoKey]. *)
Lemma initialMappings_keyed headers :
  JS.wf (initialMappings headers) /\
  forall e, In e (initialMappings headers) -> fst e = autoKey (snd e).
Proof.
  unfold initialMappings.
  assert (Hgen : forall l (m : Mappings),
             (JS.wf m /\ forall e, In e m -> fst e = autoKey (snd e)) ->
             let m' := fold_left (fun m header => JS.set m (autoKey header) header)
                                 l m in
             JS.wf m' /\ forall e, In e m' -> fst e = autoKey (snd e)).
  { induction l as [|h l IH]; intros m [Hwf Hk]; simpl; auto.
    apply IH. split; [now apply wf_set|].
    intros e He. apply in_set in He as [->|He]; auto. }
  apply Hgen. split; [apply wf_nil | intros e []].
Qed.

Lemma initialMappings_inv headers : mappingInv (initialMappings headers).
Proof.
  destruct (initialMappings_keyed headers) as [Hwf Hk].
  split; auto.
  unfold JS.wf, JS.keys in Hwf. unfold JS.values.
  apply (NoDup_map_inv autoKey).
  rewrite map_map.
  erewrite map_ext_in; [exact Hwf|].
  intros e He. symmetry. now apply Hk.
Qed.

Lemma filter_twice {A : Type} (p q : A -> bool) (l : list A) :
  filter p (filter q l) = filter (fun x => q x && p x) l.
Proof.
  induction l as [|x l IH]; simpl; auto.
  destruct (q x); simpl; [destruct (p x)|]; now rewrite IH.
Qed.

(** The removal loop of [handleMappingChange] deletes exactly the entries
    of [header] whose keys it visits. *)
Lemma removal_loop header ks (m : Mappings) :
  JS.wf m ->
  fold_left (fun m key =>
               match JS.get m key with
               | Some h => if String.eqb h header then JS.delete m key else m
               | None => m
               end) ks m
  = filter (fun e => negb (existsb (String.eqb (fst e)) ks
                           && String.eqb (snd e) header)) m.
Proof.
  revert m. induction ks as [|k ks IH]; intros m Hwf; simpl.
  - induction m as [|e m IHm]; simpl; auto.
    rewrite <- IHm at 1; auto.
    unfold JS.wf, JS.keys in *. simpl in Hwf. now inversion Hwf.
  - set (m' := match JS.get m k with
               | Some h => if String.eqb h header then JS.delete m k else m
               | None => m
               end).
    assert (Hm' : m' = filter (fun e => negb (String.eqb (fst e) k
                                              && String.eqb (snd e) header)) m).
    { unfold m'. destruct (JS.get m k) as [h|] eqn:Eg.
      - destruct (String.eqb h header) eqn:Eh.
        + apply String.eqb_eq in Eh. subst h. unfold JS.delete.
          apply filter_ext_in. intros [k0 v0] Hin. simpl.
          destruct (String.eqb k0 k) eqn:Ek; auto.
          apply String.eqb_eq in Ek. subst k0.
          apply in_get in Hin; auto. rewrite Eg in Hin. injection Hin as <-.
          now rewrite String.eqb_refl.
        + symmetry. apply forallb_filter_id. apply forallb_forall.
          intros [k0 v0] Hin. simpl.
          destruct (String.eqb k0 k) eqn:Ek; auto.
          apply String.eqb_eq in Ek. subst k0.
          apply in_get in Hin; auto. rewrite Eg in Hin. injection Hin as <-.
          now rewrite Eh.
      - symmetry. apply forallb_filter_id. apply forallb_forall.
        intros [k0 v0] Hin. simpl.
        destruct (String.eqb k0 k) eqn:Ek; auto.
        apply String.eqb_eq in Ek. subst k0.
        apply in_get in Hin; auto. congruence. }
    fold m'. rewrite IH by (rewrite Hm'; now apply wf_filter).
    rewrite Hm'. rewrite filter_twice. apply filter_ext.
    intros [k0 v0]. simpl. rewrite (String.eqb_sym k0 k).
    destruct (String.eqb k k0), (existsb (String.eqb k0) ks),
             (String.eqb v0 header); reflexivity.
Qed.

Lemma handleMappingChange_spec header value (m : Mappings) :
  JS.wf m ->
  handleMappingChange header value m
  = JS.set (filter (fun e => negb (String.eqb (snd e) header)) m) value header.
Proof.
  intros Hwf. unfold handleMappingChange. rewrite removal_loop by assumption.
  f_equal. apply filter_ext_in. intros [k v] Hin. simpl.
  assert (Hk : existsb (String.eqb k) (JS.keys m) = true).
  { apply existsb_exists. exists k. split; [|apply String.eqb_refl].
    unfold JS.keys. now apply (in_map fst) in Hin. }
  now rewrite Hk.
Qed.






(** ** Duplicate grouper: groups are the classes of the composite key *)

Lemma appDataOf_nth mappings data i :
  nth_error (appDataOf mappings data) i
  = option_map (fun row => mkIndexed (formatRow mappings row) i)
               (nth_error data i).
Proof.
  unfold appDataOf, indexed.
  assert (Hgen : forall l s i,
             nth_error (map (fun ir => mkIndexed (formatRow mappings (snd ir)) (fst ir))
                            (combine (seq s (List.length l)) l)) i
             = option_map (fun row => mkIndexed (formatRow mappings row) (s + i))
                          (nth_error l i)).
  { induction l as [|x l IH]; intros s j; simpl.
    - now destruct j.
    - destruct j as [|j]; simpl.
      + now rewrite Nat.add_0_r.
      + rewrite IH. now rewrite Nat.add_succ_r. }
  apply (Hgen data 0 i).
Qed.

Lemma appDataOf_index mappings data i a :
  nth_error (appDataOf mappings data) i = Some a -> _originalIndex a = i.
Proof.
  rewrite appDataOf_nth. destruct (nth_error data i); simpl; [|discriminate].
  now intros [= <-].
Qed.

Lemma appDataOf_member mappings data r :
  In r (appDataOf mappings data) ->
  nth_error (appDataOf mappings data) (_originalIndex r) = Some r.
Proof.
  intros Hin. apply In_nth_error in Hin as [n Hn].
  now rewrite (appDataOf_index _ _ _ _ Hn).
Qed.

Lemma pushRecord_wf sel o a : JS.wf o -> JS.wf (pushRecord sel o a).
Proof. intros H. unfold pushRecord. cbv zeta. now apply wf_set. Qed.

Lemma pushRecord_bucket sel o a k :
  bucketOf (pushRecord sel o a) k
  = (bucketOf o k
     ++ (if String.eqb (compositeKey sel a) k then [a] else []))%list.
Proof.
  unfold pushRecord. cbv zeta. unfold bucketOf at 1.
  destruct (String.eqb (compositeKey sel a) k) eqn:E.
  - apply String.eqb_eq in E. subst k. now rewrite get_set_same.
  - apply String.eqb_neq in E. rewrite get_set_other by assumption.
    now rewrite app_nil_r.
Qed.

Lemma groups_wf sel recs o :
  JS.wf o -> JS.wf (fold_left (pushRecord sel) recs o).
Proof.
  revert o. induction recs as [|a recs IH]; intros o Ho; simpl; auto.
  apply IH. now apply pushRecord_wf.
Qed.

Lemma groups_bucket sel recs o k :
  bucketOf (fold_left (pushRecord sel) recs o) k
  = (bucketOf o k
     ++ filter (fun a => String.eqb (compositeKey sel a) k) recs)%list.
Proof.
  revert o. induction recs as [|a recs IH]; intros o; simpl.
  - now rewrite app_nil_r.
  - rewrite IH, pushRecord_bucket, <- app_assoc. f_equal.
    now destruct (String.eqb (compositeKey sel a) k).
Qed.

(** The groups of the output: one per key shared by two or more rows,
    holding exactly the rows with that key, in row order. *)
Lemma csvDuplicatesFound_spec mappings sel data g :
  In g (csvDuplicatesFound mappings sel data) <->
  records g = filter (fun a => String.eqb (compositeKey sel a) (key g))
                     (appDataOf mappings data)
  /\ 2 <= List.length (records g)
  /\ matchedOn g = sel.
Proof.
  unfold csvDuplicatesFound, duplicateGroups.
  set (recs := appDataOf mappings data).
  set (groups := fold_left (pushRecord sel) recs []).
  assert (Hwf : JS.wf groups) by (apply groups_wf, wf_nil).
  assert (Hb : forall k, bucketOf groups k
                         = filter (fun a => String.eqb (compositeKey sel a) k) recs).
  { intros k. unfold groups. now rewrite groups_bucket. }
  split.
  - intros Hin. apply in_map_iff in Hin as [[k l] [<- Hin]].
    apply filter_In in Hin as [Hin Hlen]. simpl in *.
    apply Nat.ltb_lt in Hlen.
    apply in_get in Hin; auto.
    repeat split; auto.
    rewrite <- Hb. unfold bucketOf. now rewrite Hin.
  - intros (Hrec & Hlen & Hsel). destruct g as [k l m]. simpl in *. subst m.
    apply in_map_iff. exists (k, l). split; auto.
    apply filter_In. simpl. split; [|apply Nat.ltb_lt; lia].
    apply get_in. rewrite <- Hb in Hrec. unfold bucketOf in Hrec.
    destruct (JS.get groups k); [now subst|].
    subst l. simpl in Hlen. lia.
Qed.

Lemma isMember_spec i g :
  isMember i g = true <-> exists r, In r (records g) /\ _originalIndex r = i.
Proof.
  unfold isMember. rewrite existsb_exists.
  split; intros [r [Hin H]]; exists r; split; auto;
    now apply Nat.eqb_eq.
Qed.

Lemma two_members {A : Type} (l : list A) (a b : A) :
  In a l -> In b l -> a <> b -> 2 <= List.length l.
Proof.
  destruct l as [|x [|y l]]; simpl; try tauto; try lia.
  intros [->|[]] [->|[]]. congruence.
Qed.

(** A member of a group carries the key of the group. *)
Lemma member_key mappings sel data g i a :
  In g (csvDuplicatesFound mappings sel data) ->
  nth_error (appDataOf mappings data) i = Some a ->
  isMember i g = true ->
  key g = compositeKey sel a.
Proof.
  intros Hg Ha Hi.
  apply csvDuplicatesFound_spec in Hg as (Hrec & _ & _).
  apply isMember_spec in Hi as [r [Hr Hri]].
  rewrite Hrec in Hr. apply filter_In in Hr as [Hr Hk].
  apply appDataOf_member in Hr. rewrite Hri, Ha in Hr. injection Hr as <-.
  apply String.eqb_eq in Hk. congruence.
Qed.

(** A row belongs to at most one group. *)
Lemma member_of_one_group mappings sel data g g' i a :
  In g (csvDuplicatesFound mappings sel data) ->
  In g' (csvDuplicatesFound mappings sel data) ->
  nth_error (appDataOf mappings data) i = Some a ->
  isMember i g = true -> isMember i g' = true ->
  g = g'.
Proof.
  intros Hg Hg' Ha Hi Hi'.
  pose proof (member_key _ _ _ _ _ _ Hg Ha Hi) as Hk.
  pose proof (member_key _ _ _ _ _ _ Hg' Ha Hi') as Hk'.
  apply csvDuplicatesFound_spec in Hg as (Hrec & _ & Hm).
  apply csvDuplicatesFound_spec in Hg' as (Hrec' & _ & Hm').
  destruct g as [k l m], g' as [k' l' m']. simpl in *.
  subst k k' m m'. now rewrite Hrec, Hrec'.
Qed.

(** Rows [i] and [j] share a group exactly when their keys are equal. *)
Lemma sameGroup_iff_key mappings sel data i j a b :
  nth_error (appDataOf mappings data) i = Some a ->
  nth_error (appDataOf mappings data) j = Some b ->
  i <> j ->
  sameGroup (csvDuplicatesFound mappings sel data) i j
  <-> compositeKey sel a = compositeKey sel b.
Proof.
  intros Ha Hb Hij.
  pose proof (appDataOf_index _ _ _ _ Ha) as Hia.
  pose proof (appDataOf_index _ _ _ _ Hb) as Hjb.
  split.
  - intros (g & Hg & Hi & Hj).
    apply csvDuplicatesFound_spec in Hg as (Hrec & _ & _).
    apply isMember_spec in Hi as [r [Hr Hri]].
    apply isMember_spec in Hj as [r' [Hr' Hrj]].
    rewrite Hrec in Hr, Hr'.
    apply filter_In in Hr as [Hr Hk]. apply filter_In in Hr' as [Hr' Hk'].
    apply appDataOf_member in Hr, Hr'.
    rewrite Hri, Ha in Hr. rewrite Hrj, Hb in Hr'.
    injection Hr as <-. injection Hr' as <-.
    apply String.eqb_eq in Hk, Hk'. congruence.
  - intros Hkey.
    set (l := filter (fun x => String.eqb (compositeKey sel x) (compositeKey sel a))
                     (appDataOf mappings data)).
    assert (Hal : In a l).
    { apply filter_In. split; [eapply nth_error_In; eauto|].
      apply String.eqb_refl. }
    assert (Hbl : In b l).
    { apply filter_In. split; [eapply nth_error_In; eauto|].
      rewrite Hkey. apply String.eqb_refl. }
    exists (mkGroup (compositeKey sel a) l sel). split; [|split].
    + apply csvDuplicatesFound_spec. simpl. repeat split; auto.
      apply (two_members l a b); auto. intros ->. congruence.
    + apply isMember_spec. exists a. auto.
    + apply isMember_spec. exists b. auto.
Qed.

Lemma append_cancel_l (p s t : string) : p ++ s = p ++ t -> s = t.
Proof.
  induction p as [|c p IH]; simpl; auto.
  intros [= H]. auto.
Qed.

Lemma append_assoc' (a b c : string) : (a ++ b) ++ c = a ++ (b ++ c).
Proof. induction a as [|x a IH]; simpl; congruence. Qed.

(** Two texts cut at their first separator agree piecewise. *)
Lemma cut_at_first_pipe (a b c d : string) :
  hasPipe a = false -> hasPipe b = false ->
  a ++ String "|"%char c = b ++ String "|"%char d -> a = b /\ c = d.
Proof.
  revert b. induction a as [|x a IH]; intros [|y b]; simpl.
  - intros _ _ [= ->]. auto.
  - intros _ Hb [= <- _].
    rewrite Ascii.eqb_refl in Hb. discriminate.
  - intros Ha _ [= -> _].
    rewrite Ascii.eqb_refl in Ha. discriminate.
  - intros Ha Hb [= -> H].
    apply orb_false_iff in Ha as [_ Ha]. apply orb_false_iff in Hb as [_ Hb].
    destruct (IH b Ha Hb H) as [-> ->]. auto.
Qed.

(** On records whose selected values hold no separator the composite key
    determines the selected values. *)
Lemma compositeKey_injective sel a b :
  pipeFree sel (fields a) -> pipeFree sel (fields b) ->
  compositeKey sel a = compositeKey sel b ->
  sameSelectedValues sel (fields a) (fields b).
Proof.
  unfold compositeKey, pipeFree, sameSelectedValues.
  induction sel as [|f [|g sel] IH]; intros Ha Hb Hkey x Hx.
  - destruct Hx.
  - destruct Hx as [<-|[]]. simpl in Hkey.
    apply append_cancel_l in Hkey. simpl in Hkey. now injection Hkey.
  - change (JS.join "|" (map ?h (f :: g :: sel)))
      with (h f ++ "|" ++ JS.join "|" (map h (g :: sel))) in Hkey.
    cbv beta in Hkey. rewrite !append_assoc' in Hkey.
    apply append_cancel_l in Hkey. simpl in Hkey.
    injection Hkey as Hkey.
    apply cut_at_first_pipe in Hkey as [Hf Hrest];
      [| apply Ha; now left | apply Hb; now left].
    destruct Hx as [<-|Hx]; auto.
    apply IH; auto.
    + intros y Hy. apply Ha. now right.
    + intros y Hy. apply Hb. now right.
Qed.

Lemma compositeKey_of_values sel a b :
  sameSelectedValues sel (fields a) (fields b) ->
  compositeKey sel a = compositeKey sel b.
Proof.
  unfold compositeKey, sameSelectedValues. intros H.
  f_equal. apply map_ext_in. intros f Hf. now rewrite H.
Qed.

Lemma checkForCsvDuplicates_groups mappings mf data s :
  selectedMatchFields mf <> [] ->
  csvDuplicates (fst (checkForCsvDuplicates mappings mf data s))
  = csvDuplicatesFound mappings (selectedMatchFields mf) data.
Proof.
  intros Hsel. unfold checkForCsvDuplicates.
  destruct (selectedMatchFields mf) as [|f sel] eqn:E; [congruence|].
  now destruct (csvDuplicatesFound mappings (f :: sel) data).
Qed.

(** C2, as stated, fails: the two data rows of [collidingCells] differ on
    both selected fields, yet they produce the same composite key and
    land in one group. *)
Lemma colliding_keys_share_a_group :
  let p := parseCSV collidingCells in
  let sel := selectedMatchFields nameAndId in
  let found := csvDuplicates
                 (fst (checkForCsvDuplicates (p_mappings p) nameAndId
                         (p_data p) initialDedup)) in
  exists a b,
    nth_error (appDataOf (p_mappings p) (p_data p)) 0 = Some a /\
    nth_error (appDataOf (p_mappings p) (p_data p)) 1 = Some b /\
    sel <> [] /\
    sameGroup found 0 1 /\
    ~ sameSelectedValues sel (fields a) (fields b).
Proof.
  intros p sel found.
  eexists. eexists.
  split; [vm_compute; reflexivity|].
  split; [vm_compute; reflexivity|].
  split; [vm_compute; discriminate|].
  split.
  - unfold sameGroup.
    assert (Hf : exists g, found = [g] /\ isMember 0 g = true
                           /\ isMember 1 g = true).
    { vm_compute. eexists. repeat split. }
    destruct Hf as (g & Hg & H0 & H1).
    exists g. rewrite Hg. repeat split; auto. now left.
  - intros H. specialize (H appName). vm_compute in H.
    assert (Hc : "a|appId:b" = "a") by (apply H; now left).
    discriminate Hc.
Qed.

(** C2, amended. For a non-empty selection, two distinct rows land in the
    same group of [checkForCsvDuplicates] exactly when their composite
    keys are equal.  Rows with equal values on every selected field
    always share a group; rows that share a group have equal values on
    every selected field provided none of these values contains the
    separator [|].  A row belongs to at most one group, a group holds
    exactly the rows with its key in row order, and no group has fewer
    than two records. *)
Theorem groups_are_key_classes mappings mf data s i j a b :
  selectedMatchFields mf <> [] ->
  nth_error (appDataOf mappings data) i = Some a ->
  nth_error (appDataOf mappings data) j = Some b ->
  i <> j ->
  let sel := selectedMatchFields mf in
  let found := csvDuplicates (fst (checkForCsvDuplicates mappings mf data s)) in
  (sameGroup found i j <-> compositeKey sel a = compositeKey sel b) /\
  (sameSelectedValues sel (fields a) (fields b) -> sameGroup found i j) /\
  (pipeFree sel (fields a) -> pipeFree sel (fields b) ->
   sameGroup found i j -> sameSelectedValues sel (fields a) (fields b)) /\
  (forall g g', In g found -> In g' found ->
                isMember i g = true -> isMember i g' = true -> g = g') /\
  (forall g, In g found ->
             records g = filter (fun r => String.eqb (compositeKey sel r) (key g))
                                (appDataOf mappings data)
             /\ 2 <= List.length (records g)).
Proof.
  intros Hsel Ha Hb Hij sel found.
  unfold found. rewrite checkForCsvDuplicates_groups by assumption. fold sel.
  pose proof (sameGroup_iff_key mappings sel data i j a b Ha Hb Hij) as Hiff.
  repeat split.
  - apply Hiff.
  - apply Hiff.
  - intros Hv. apply Hiff. now apply compositeKey_of_values.
  - intros Hpa Hpb Hg. apply compositeKey_injective; auto. now apply Hiff.
  - intros g g' Hg Hg' Hi Hi'.
    now apply (member_of_one_group mappings sel data g g' i a).
  - now apply csvDuplicatesFound_spec in H.
  - now apply csvDuplicatesFound_spec in H.
Qed.

Lemma groups_are_key_classes_witness :
  let p := parseCSV twoSameNames in
  let first := mkIndexed (formatRow (p_mappings p)
                            [("App Name", Some "A"); ("App ID", Some "1")]) 0 in
  let second := mkIndexed (formatRow (p_mappings p)
                             [("App Name", Some "A"); ("App ID", Some "2")]) 1 in
  sameGroup (csvDuplicates
               (fst (checkForCsvDuplicates (p_mappings p) defaultMatchFields
                       (p_data p) initialDedup))) 0 1
  <-> compositeKey (selectedMatchFields defaultMatchFields) first
      = compositeKey (selectedMatchFields defaultMatchFields) second.
Proof.
  intros p first second.
  refine (proj1 (groups_are_key_classes (p_mappings p) defaultMatchFields
                   (p_data p) initialDedup 0 1 first second _ _ _ _)).
  - vm_compute. discriminate.
  - vm_compute. reflexivity.
  - vm_compute. reflexivity.
  - lia.
Defined.

(** ** Resolution engine: what the survivor filters keep *)

(** A row that belongs to no group passes both filters. *)
Lemma ungrouped_row_is_kept groups res index :
  findGroup groups index = None ->
  deduplicatedKeep groups res index = true
  /\ keepDecision groups res index = true.
Proof.
  intros H. unfold deduplicatedKeep, keepDecision. now rewrite H.
Qed.

(** Under [skip] both filters compare with [selectedIndex], as they do
    for [keepFirst] and [keepLast]. *)
Lemma skip_is_filtered_by_selectedIndex groups res index g r :
  findGroup groups index = Some g ->
  JS.get res (key g) = Some r ->
  action r = Some "skip" ->
  deduplicatedKeep groups res index = Nat.eqb (selectedIndex r) index
  /\ keepDecision groups res index = Nat.eqb (selectedIndex r) index.
Proof.
  intros Hg Hr Ha. unfold deduplicatedKeep, keepDecision.
  now rewrite Hg, Hr, Ha.
Qed.

(** C1. The file [twoSameNames] with the bulk action [skip]: the screen
    shows one group of two records whose resolution is [skip], and its
    summary announces no record kept and two skipped; yet the filter of
    [checkForDuplicates] and the one of [handleImport] both keep the
    first record of the group. *)
Theorem skip_keeps_first_member :
  let p := parseCSV twoSameNames in
  let s := screenFor "skip" in
  (exists g r,
      csvDuplicates s = [g]
      /\ List.length (records g) = 2
      /\ JS.get (csvDuplicateResolutions s) (key g) = Some r
      /\ action r = Some "skip")
  /\ recordsToBeKept (csvDuplicates s) (csvDuplicateResolutions s) = 0
  /\ recordsToBeSkipped (csvDuplicates s) (csvDuplicateResolutions s) = 2
  /\ deduplicatedData (csvDuplicates s) (csvDuplicateResolutions s) (p_data p)
     = [[("App Name", Some "A"); ("App ID", Some "1")]]
  /\ keepIndices (csvDuplicates s) (csvDuplicateResolutions s) (p_data p) = [0].
Proof.
  intros p s. split.
  - vm_compute. eexists. eexists. repeat split.
  - vm_compute. repeat split.
Qed.

(** C4. The file [twoSameNames] with "Merge Fields" chosen for its group
    and the second record ticked for [appId]: the preview shows the merged
    [appId] "2", but the survivor handed to the remote check and the
    record put in the payload are the first row as it was, with [appId]
    "1". *)
Theorem merge_keeps_first_row_unmerged (parse : UrlParser) :
  let p := parseCSV twoSameNames in
  exists s g r,
    mergedScreen = Some s
    /\ csvDuplicates s = [g]
    /\ JS.get (csvDuplicateResolutions s) (key g) = Some r
    /\ action r = Some "merge"
    /\ mergeFields r = Some [("appId", 1)]
    /\ mergedPreview g r appId = Some "2"
    /\ map (formatRow (p_mappings p))
           (deduplicatedData (csvDuplicates s) (csvDuplicateResolutions s)
                             (p_data p))
       = [mkAppData "A" "1" "" "" "" "" "" "" "" ""]
    /\ map w_fields
           (formattedRecords parse (p_mappings p) (csvDuplicates s)
                             (csvDuplicateResolutions s) (p_data p))
       = [mkAppData "A" "1" "" "" "" "" "" "" "" ""]
    /\ firstIndex g = 0.
Proof.
  intros p. vm_compute. do 3 eexists. repeat split.
Qed.

(** ** Resolution engine: the stored actions *)

Lemma get_set_cases {V : Type} (o : JS.obj V) k k' v r :
  JS.get (JS.set o k v) k' = Some r -> r = v \/ JS.get o k' = Some r.
Proof.
  destruct (string_dec k k') as [<-|Hne].
  - rewrite get_set_same. intros [= <-]. now left.
  - rewrite get_set_other by assumption. now right.
Qed.

Lemma get_set_defined {V : Type} (o : JS.obj V) k k' v :
  JS.get o k' <> None -> JS.get (JS.set o k v) k' <> None.
Proof.
  destruct (string_dec k k') as [<-|Hne].
  - rewrite get_set_same. discriminate.
  - now rewrite get_set_other.
Qed.

Lemma actionsValid_set res k r a :
  actionsValid res -> action r = Some a -> isDuplicateAction a = true ->
  actionsValid (JS.set res k r).
Proof.
  intros Hres Ha Hv k' r' Hget.
  apply get_set_cases in Hget as [->|Hget]; eauto.
Qed.

(** Filing one resolution with action [a] for each group of a list. *)
Lemma bulk_fold_valid a (ix : DuplicateGroup -> nat) groups res :
  isDuplicateAction a = true -> actionsValid res ->
  actionsValid
    (fold_left (fun acc g => JS.set acc (key g) (mkRes (Some a) (ix g) None))
               groups res).
Proof.
  intros Ha. revert res. induction groups as [|g gs IH]; intros res Hres; simpl; auto.
  apply IH. now apply (actionsValid_set _ _ _ a).
Qed.

Lemma bulk_fold_defined a (ix : DuplicateGroup -> nat) groups res k :
  JS.get res k <> None \/ In k (map key groups) ->
  JS.get (fold_left (fun acc g => JS.set acc (key g) (mkRes (Some a) (ix g) None))
                    groups res) k <> None.
Proof.
  revert res. induction groups as [|g gs IH]; intros res H; simpl in *.
  - tauto.
  - apply IH. destruct H as [H|[H|H]]; auto.
    + left. now apply get_set_defined.
    + left. subst k. rewrite get_set_same. discriminate.
Qed.

Lemma dedupStep_inv s e s' : dedupInv s -> dedupStep s e s' -> dedupInv s'.
Proof.
  intros (Hbulk & Hval & Hcov) Hstep.
  destruct Hstep as [s mappings mf data | s v Hv | s g v Hg Hv
                    | s g index Hg | s g f recordIndex res' Hg Hset].
  - unfold checkForCsvDuplicates.
    destruct (selectedMatchFields mf) as [|f0 sel].
    + repeat split; simpl; auto.
      * intros k r. discriminate.
      * intros g [].
    + destruct (csvDuplicatesFound mappings (f0 :: sel) data) as [|g0 found] eqn:E.
      * repeat split; simpl; auto. intros g [].
      * repeat split; simpl fst; cbn [bulkDuplicateAction csvDuplicates
                                       csvDuplicateResolutions]; auto.
        -- unfold initialResolutions. apply bulk_fold_valid; auto.
           intros k r. discriminate.
        -- intros g Hg. unfold initialResolutions.
           apply bulk_fold_defined. right. now apply in_map.
  - unfold bulkActionChange.
    destruct (negb (String.eqb v "merge")); repeat split; simpl; auto.
    + now apply bulk_fold_valid.
    + intros g Hg. simpl. apply bulk_fold_defined. right. now apply in_map.
  - repeat split; simpl; auto.
    + unfold groupActionChange. now apply (actionsValid_set _ _ _ v).
    + intros g' Hg'. simpl. unfold groupActionChange.
      apply get_set_defined. now apply Hcov.
  - repeat split; simpl; auto.
    + unfold selectRecord.
      destruct (JS.get (csvDuplicateResolutions s) (key g)) as [r|] eqn:Er.
      * destruct (Hval _ _ Er) as (a & Ha & Hva).
        now apply (actionsValid_set _ _ _ a).
      * now apply Hcov in Hg.
    + intros g' Hg'. simpl. unfold selectRecord.
      apply get_set_defined. now apply Hcov.
  - unfold setMergeField in Hset.
    destruct (JS.get (csvDuplicateResolutions s) (key g)) as [r|] eqn:Er;
      [|discriminate].
    injection Hset as <-.
    destruct (Hval _ _ Er) as (a & Ha & Hva).
    repeat split; simpl; auto.
    + now apply (actionsValid_set _ _ _ a).
    + intros g' Hg'. simpl. apply get_set_defined. now apply Hcov.
Qed.

(** Through the controls of the duplicates screen (re-grouping, bulk
    selector, per-group selector, record radio button, merge check box)
    every stored resolution keeps one of the four actions. *)
Lemma screen_actions_stay_valid s :
  dedupReachable s -> actionsValid (csvDuplicateResolutions s).
Proof.
  intros Hr.
  assert (Hinv : dedupInv s).
  { induction Hr as [|s e s' _ IH Hstep].
    - repeat split; simpl; auto.
      + intros k r. discriminate.
      + intros g [].
    - now apply (dedupStep_inv s e). }
  apply Hinv.
Qed.

(** The handler [handleCsvDuplicateResolution] is called by no control
    of the component.  Were it called on the screen of [twoSameNames], it
    would store the string "keep", which is none of the four actions. *)
Lemma handleCsvDuplicateResolution_stores_keep :
  let s := screenFor "keepFirst" in
  let res' := handleCsvDuplicateResolution "appName:A" 1
                (csvDuplicateResolutions s) in
  dedupReachable s
  /\ actionsValid (csvDuplicateResolutions s)
  /\ JS.get res' "appName:A" = Some (mkRes (Some "keep") 1 None)
  /\ isDuplicateAction "keep" = false
  /\ ~ actionsValid res'.
Proof.
  intros s res'.
  assert (Hreach : dedupReachable s).
  { unfold s, screenFor.
    eapply reach_step; [|apply step_recheck].
    eapply reach_step; [apply reach_init|].
    apply step_bulk. reflexivity. }
  split; [exact Hreach|].
  split; [now apply screen_actions_stay_valid|].
  split; [vm_compute; reflexivity|].
  split; [reflexivity|].
  intros Hval.
  destruct (Hval "appName:A" (mkRes (Some "keep") 1 None)) as (a & Ha & Hv).
  - vm_compute. reflexivity.
  - simpl in Ha. injection Ha as <-. discriminate Hv.
Qed.

(** C9. Every resolution stored by the duplicates screen, from its
    initialization by [checkForCsvDuplicates] through any sequence of
    re-groupings, bulk-action changes, per-group action changes,
    per-record survivor selections and merge-field ticks, holds an action
    drawn from [keepFirst], [keepLast], [merge] and [skip]. *)
Theorem stored_actions_are_duplicate_actions
    (s : DedupState) (k : string) (r : CsvDuplicateResolution) :
  dedupReachable s ->
  JS.get (csvDuplicateResolutions s) k = Some r ->
  exists a, action r = Some a
            /\ In a ["keepFirst"; "keepLast"; "merge"; "skip"].
Proof.
  intros Hr Hget.
  assert (Hinv : dedupInv s).
  { clear Hget. induction Hr as [|s e s' _ IH Hstep].
    - repeat split; simpl; auto.
      + intros k' r'. discriminate.
      + intros g [].
    - now apply (dedupStep_inv s e). }
  destruct Hinv as (_ & Hval & _).
  destruct (Hval k r Hget) as (a & Ha & Hv).
  exists a. split; auto.
  unfold isDuplicateAction in Hv.
  apply existsb_exists in Hv as (x & Hx & Heq).
  apply String.eqb_eq in Heq. now subst x.
Qed.

Lemma stored_actions_are_duplicate_actions_witness :
  exists a, action (mkRes (Some "keepLast") 1 None) = Some a
            /\ In a ["keepFirst"; "keepLast"; "merge"; "skip"].
Proof.
  apply (stored_actions_are_duplicate_actions (screenFor "keepLast")
           "appName:A" (mkRes (Some "keepLast") 1 None)).
  - unfold screenFor.
    eapply reach_step; [|apply step_recheck].
    eapply reach_step; [apply reach_init|].
    apply step_bulk. reflexivity.
  - vm_compute. reflexivity.
Defined.

(** ** Remote lookup: a failed lookup stays local to its row *)

Section LookupLoop.
Variable configured : bool.
Variable remote : Remote.
Variable recordId : option string.
Variable mappings : Mappings.

(** What the loop adds does not depend on what was found before. *)
Lemma checkRows_frame rows n found log :
  checkRows configured remote recordId mappings (mkLoop n found log) rows
  = let r := checkRows configured remote recordId mappings (mkLoop n [] []) rows in
    mkLoop (lookups r) (found ++ duplicatesFound r) (log ++ errorLog r).
Proof.
  unfold checkRows.
  revert n found log. induction rows as [|row rows IH]; intros n found log.
  - simpl. now rewrite !app_nil_r.
  - simpl fold_left.
    assert (Hstep : forall f l,
               checkRow configured remote recordId mappings (mkLoop n f l) row
               = let d := checkRow configured remote recordId mappings
                                    (mkLoop n [] []) row in
                 mkLoop (S n) (f ++ duplicatesFound d) (l ++ errorLog d)).
    { intros f l. unfold checkRow. simpl.
      destruct (findAppDuplicates configured remote n
                  (formatRow mappings row) recordId) as [msg|[|d ds]];
        simpl; now rewrite ?app_nil_r. }
    rewrite (Hstep found log), (Hstep [] []). cbv zeta. simpl app.
    rewrite IH.
    rewrite (IH _ (duplicatesFound _) (errorLog _)).
    cbv zeta. simpl. now rewrite !app_assoc.
Qed.

Lemma checkRows_lookups rows st :
  lookups (checkRows configured remote recordId mappings st rows) = lookups st + List.length rows.
Proof.
  unfold checkRows. revert st.
  induction rows as [|row rows IH]; intros st; simpl; [lia|].
  rewrite IH. unfold checkRow.
  destruct (findAppDuplicates configured remote (lookups st)
              (formatRow mappings row) recordId) as [msg|[|d ds]];
    simpl; lia.
Qed.

(** The loop on [pre ++ row :: post] when the lookup of [row] throws. *)
Lemma checkRows_failed_row pre row post message :
  findAppDuplicates configured remote (List.length pre)
                    (formatRow mappings row) recordId
  = LookupError message ->
  let before := checkRows configured remote recordId mappings (mkLoop 0 [] []) pre in
  let rest := checkRows configured remote recordId mappings (mkLoop (S (List.length pre)) [] []) post in
  checkRows configured remote recordId mappings (mkLoop 0 [] []) (pre ++ row :: post)%list
  = mkLoop (lookups rest)
           (duplicatesFound before ++ duplicatesFound rest)
           (errorLog before
            ++ errorLine (formatRow mappings row) message :: errorLog rest).
Proof.
  intros Hfail before rest.
  assert (Hn : lookups before = List.length pre).
  { unfold before. now rewrite checkRows_lookups. }
  assert (Hsplit : checkRows configured remote recordId mappings (mkLoop 0 [] []) (pre ++ row :: post)%list
                   = checkRows configured remote recordId mappings (checkRow configured remote recordId mappings
                                   before row) post).
  { unfold before, checkRows. now rewrite fold_left_app. }
  rewrite Hsplit. unfold checkRow. rewrite Hn, Hfail.
  rewrite checkRows_frame. cbv zeta. fold rest.
  now rewrite <- app_assoc.
Qed.
End LookupLoop.

(** C8. When the lookup of one surviving row throws, the loop of
    [checkForDuplicates] runs to the end of the batch ([lookups] counts
    every row), logs one line for that row, and [duplicatesFound] is
    what the rows before it and the rows after it produce on their own:
    the failed row adds no entry, as a row without duplicates would, and
    no other row gains or loses one. *)
Theorem failed_lookup_is_isolated
    (configured : bool) (remote : Remote) (recordId : option string)
    (mappings : Mappings) (pre post : list Row) (row : Row) (message : string) :
  findAppDuplicates configured remote (List.length pre)
                    (formatRow mappings row) recordId
  = LookupError message ->
  let run := checkRows configured remote recordId mappings in
  let final := run (mkLoop 0 [] []) (pre ++ row :: post)%list in
  let before := run (mkLoop 0 [] []) pre in
  let rest := run (mkLoop (S (List.length pre)) [] []) post in
  lookups final = List.length (pre ++ row :: post)%list
  /\ duplicatesFound final = (duplicatesFound before ++ duplicatesFound rest)%list
  /\ errorLog final
     = (errorLog before
        ++ errorLine (formatRow mappings row) message :: errorLog rest)%list
  /\ duplicatesFound (checkRow configured remote recordId mappings
                                (mkLoop (List.length pre) [] []) row) = [].
Proof.
  intros Hfail run final before rest.
  unfold final, run.
  rewrite (checkRows_failed_row _ _ _ _ _ _ _ _ Hfail). simpl.
  repeat split.
  - rewrite checkRows_lookups. simpl. rewrite length_app. simpl. lia.
  - unfold checkRow. simpl. now rewrite Hfail.
Qed.

Lemma failed_lookup_is_isolated_witness :
  let p := parseCSV (twoSameNames ++ nl ++ "B,3") in
  let final := checkRows true secondLookupFails (Some "recX") (p_mappings p)
                         (mkLoop 0 [] []) (p_data p) in
  lookups final = 3.
Proof.
  intros p.
  refine (proj1 (failed_lookup_is_isolated true secondLookupFails (Some "recX")
                   (p_mappings p)
                   [[("App Name", Some "A"); ("App ID", Some "1")]]
                   [[("App Name", Some "B"); ("App ID", Some "3")]]
                   [("App Name", Some "A"); ("App ID", Some "2")]
                   "timeout" _)).
  vm_compute. reflexivity.
Defined.

(** With a record id, [checkForDuplicates] returns what the loop found
    over the deduplicated rows, and the log of the loop. *)
Lemma checkForDuplicates_runs_loop configured remote rid mappings groups res
      data s :
  JS.truthy rid = true ->
  let final := checkRows configured remote (Some rid) mappings (mkLoop 0 [] [])
                         (deduplicatedData groups res data) in
  let out := checkForDuplicates configured remote (Some rid) mappings groups
                                res data s in
  st_duplicates (fst (fst out)) = duplicatesFound final
  /\ snd out = errorLog final.
Proof.
  intros Hrid final out. unfold out, checkForDuplicates. rewrite Hrid. simpl.
  fold final. now destruct (duplicatesFound final).
Qed.

(** ** Finalizer: the counts of the summary *)


Lemma remote_actions_split (rr : RemoteResolutions) :
  List.length (updatedIds rr) + List.length (unchangedIds rr) = List.length rr.
Proof.
  unfold updatedIds, unchangedIds. rewrite !length_map.
  induction rr as [|[i r] rr IH]; simpl; auto.
  destruct (r_action r); simpl; lia.
Qed.



(** ** Remote resolution engine: merge field by field *)

Lemma get_absent {V : Type} (o : JS.obj V) k :
  ~ In k (JS.keys o) -> JS.get o k = None.
Proof.
  intros Hn. destruct (JS.get o k) eqn:E; auto.
  apply get_in in E. exfalso. apply Hn.
  unfold JS.keys. now apply (in_map fst) in E.
Qed.

Lemma applyFieldResolution_other imported result k r f :
  k <> f ->
  JS.get (applyFieldResolution imported result (k, r)) f = JS.get result f.
Proof.
  intros Hne. unfold applyFieldResolution. cbn [fst snd].
  destruct r; auto.
  destruct (JS.get imported k) as [v|]; auto.
  destruct (jsTruthy (Some v)); auto.
  now apply get_set_other.
Qed.

Lemma applyFieldResolution_same imported result k r :
  JS.get (applyFieldResolution imported result (k, r)) k
  = match r with
    | Imported => if jsTruthy (JS.get imported k) then JS.get imported k
                  else JS.get result k
    | _ => JS.get result k
    end.
Proof.
  unfold applyFieldResolution. cbn [fst snd].
  destruct r; auto.
  destruct (JS.get imported k) as [v|]; auto.
  destruct (jsTruthy (Some v)); auto.
  apply get_set_same.
Qed.

(** The [forEach] over [fieldResolutions], read field by field. *)
Lemma merge_loop imported (fr : JS.obj FieldResolution) result f :
  JS.wf fr ->
  JS.get (fold_left (applyFieldResolution imported) fr result) f
  = match JS.get fr f with
    | Some Imported => if jsTruthy (JS.get imported f) then JS.get imported f
                       else JS.get result f
    | _ => JS.get result f
    end.
Proof.
  revert result. induction fr as [|[k r] fr IH]; intros result Hwf; simpl; auto.
  unfold JS.wf, JS.keys in Hwf. simpl in Hwf.
  inversion Hwf as [|? ? Hnin Hwf']; subst.
  rewrite IH by exact Hwf'.
  destruct (String.eqb k f) eqn:E.
  - apply String.eqb_eq in E. subst f.
    rewrite (get_absent fr k Hnin). apply applyFieldResolution_same.
  - apply String.eqb_neq in E.
    rewrite !(applyFieldResolution_other _ _ _ _ _ E). reflexivity.
Qed.

Lemma initial_inner_default (ds : list AppRecord) (acc : RemoteResolutions) k :
  JS.get acc k = Some defaultResolution \/ In k (map id ds) ->
  JS.get (fold_left (fun acc' duplicate =>
                       JS.set acc' (id duplicate)
                         (mkRemoteRes Keep (Some defaultFieldResolutions)))
                    ds acc) k
  = Some defaultResolution.
Proof.
  revert acc. induction ds as [|d ds IH]; intros acc H; simpl in *.
  - tauto.
  - apply IH.
    destruct (string_dec (id d) k) as [<-|Hne].
    + left. apply get_set_same.
    + destruct H as [H|[H|H]]; auto; [|contradiction].
      left. now rewrite get_set_other.
Qed.

Lemma initial_outer_default (found : list RemoteMatch) (acc : RemoteResolutions) k :
  JS.get acc k = Some defaultResolution
  \/ (exists dup, In dup found /\ In k (map id (duplicates dup))) ->
  JS.get (fold_left (fun acc dup =>
                       fold_left (fun acc' duplicate =>
                                    JS.set acc' (id duplicate)
                                      (mkRemoteRes Keep (Some defaultFieldResolutions)))
                                 (duplicates dup) acc)
                    found acc) k
  = Some defaultResolution.
Proof.
  revert acc. induction found as [|m found IH]; intros acc H; simpl in *.
  - destruct H as [H|(dup & [] & _)]; auto.
  - apply IH.
    destruct H as [H|(dup & [<-|Hin] & Hk)].
    + left. apply initial_inner_default. now left.
    + left. apply initial_inner_default. now right.
    + right. eauto.
Qed.

Lemma defaultFieldResolutions_wf : JS.wf defaultFieldResolutions.
Proof.
  unfold JS.wf. vm_compute.
  repeat (constructor; [simpl; intuition discriminate|]). constructor.
Qed.

(** C6. Under a [merge] resolution [calculateFinalData] decides each
    field on its own: a field marked [existing] (or not marked) keeps the
    remote value; a field marked [imported] takes the row's value unless
    that value is empty or missing, in which case the remote value stays.
    A newly found duplicate starts with action [keep] and all ten fields
    [existing]; changing the action leaves the field marks alone, and
    marking one field changes that field only. *)
Theorem merge_resolves_each_field
    (existing imported : JS.obj jsval) (fr : JS.obj FieldResolution) :
  JS.wf fr ->
  (exists result,
      calculateFinalData (Some existing) (Some imported)
                         (Some (mkRemoteRes Merge (Some fr))) = Value result
      /\ forall f,
          JS.get result f
          = match JS.get fr f with
            | Some Imported =>
                if jsTruthy (JS.get imported f) then JS.get imported f
                else JS.get existing f
            | _ => JS.get existing f
            end)
  /\ (forall found dup duplicate,
         In dup found -> In duplicate (duplicates dup) ->
         JS.get (initialRemoteResolutions found) (id duplicate)
         = Some (mkRemoteRes Keep (Some defaultFieldResolutions)))
  /\ (forall f, JS.get defaultFieldResolutions (field_name f) = Some Existing)
  /\ (forall i a prev r,
         JS.get prev i = Some r ->
         JS.get (handleDuplicateResolution i a prev) i
         = Some (mkRemoteRes a (fieldResolutions r)))
  /\ (forall i f x prev r fr0,
         JS.get prev i = Some r -> fieldResolutions r = Some fr0 ->
         exists prev' fr',
           handleFieldResolution i f x prev = Some prev'
           /\ JS.get prev' i = Some (mkRemoteRes (r_action r) (Some fr'))
           /\ JS.get fr' f = Some x
           /\ forall g, g <> f -> JS.get fr' g = JS.get fr0 g).
Proof.
  intros Hwf. repeat split.
  - eexists. split; [reflexivity|].
    intros f. now apply merge_loop.
  - intros found dup duplicate Hdup Hd.
    unfold initialRemoteResolutions. apply initial_outer_default.
    right. exists dup. split; auto. now apply in_map.
  - intros f. now destruct f.
  - intros i a prev r Hget. unfold handleDuplicateResolution.
    now rewrite get_set_same, Hget.
  - intros i f x prev r fr0 Hget Hfr.
    unfold handleFieldResolution. rewrite Hget, Hfr.
    do 2 eexists. split; [reflexivity|]. split; [apply get_set_same|].
    split; [apply get_set_same|].
    intros g Hg. apply get_set_other. congruence.
Qed.

Lemma merge_resolves_each_field_witness :
  exists result,
    calculateFinalData (Some (appRecordObj (remoteTwin "rec1")))
                       (Some (appDataObj importedB))
                       (Some (mkRemoteRes Merge (Some onlyNameImported)))
    = Value result
    /\ forall f,
        JS.get result f
        = match JS.get onlyNameImported f with
          | Some Imported =>
              if jsTruthy (JS.get (appDataObj importedB) f)
              then JS.get (appDataObj importedB) f
              else JS.get (appRecordObj (remoteTwin "rec1")) f
          | _ => JS.get (appRecordObj (remoteTwin "rec1")) f
          end.
Proof.
  apply (merge_resolves_each_field (appRecordObj (remoteTwin "rec1"))
           (appDataObj importedB) onlyNameImported).
  unfold onlyNameImported. apply wf_set. exact defaultFieldResolutions_wf.
Defined.

(** ** Domain extraction *)

Lemma truthy_nonempty s : s <> EmptyString -> JS.truthy s = true.
Proof. destruct s; [congruence | reflexivity]. Qed.

Lemma matchAt_nonslash c s :
  Ascii.eqb c "/"%char = false -> exists g, matchAt (String c s) = Some g.
Proof.
  intros Hc.
  assert (Hcap : exists g, capture (String c s) = Some g).
  { unfold capture. simpl. rewrite Hc. eauto. }
  assert (Hwww : exists g, matchWww (String c s) = Some g).
  { unfold matchWww, orElse.
    destruct (if startsWithCI "www." (String c s) then _ else None); eauto. }
  unfold matchAt, orElse.
  destruct (if startsWithCI "https://" (String c s) then _ else _); eauto.
Qed.

Lemma regexGuess_nonslash c s :
  Ascii.eqb c "/"%char = false -> exists g, regexGuess (String c s) = Some g.
Proof.
  intros Hc. destruct (matchAt_nonslash c s Hc) as [g Hg].
  exists g. simpl regexGuess. now rewrite Hg.
Qed.

Lemma lower_h_not_slash c :
  JS.lower_char c = "h"%char -> Ascii.eqb c "/"%char = false.
Proof.
  intros H. destruct (Ascii.eqb c "/"%char) eqn:E; auto.
  apply Ascii.eqb_eq in E. subst c. discriminate H.
Qed.

(** The URL handed to the parser starts with an [h]: the expression of
    the [catch] branch always finds a guess. *)
Lemma regexGuess_withScheme url :
  exists g, regexGuess (withScheme url) = Some g.
Proof.
  unfold withScheme. destruct (hasScheme url) eqn:E.
  - destruct url as [|c url]; [discriminate|].
    apply regexGuess_nonslash. apply lower_h_not_slash.
    unfold hasScheme, startsWithCI in E.
    cbn [JS.toLowerCase JS.startsWith] in E.
    destruct (Ascii.eqb "h" (JS.lower_char c)) eqn:Eh.
    + apply Ascii.eqb_eq in Eh. auto.
    + simpl in E. discriminate.
  - now apply regexGuess_nonslash.
Qed.

(** C7. Given the platform's hostnames for the two sample URLs,
    [extractRootDomain] maps "https://www.Example.com/path" and
    "example.com" to "example.com", and "" to "".  In general a URL
    without scheme is prefixed with "https://", and the result is the
    parsed hostname, lowercased, without a leading "www.".  When the
    parser throws, the result is the lowercased guess of the regular
    expression, which always exists: the final [return url] is never
    reached. *)
Theorem extractRootDomain_spec (parse : UrlParser) :
  parse "https://www.Example.com/path" = Some "www.example.com" ->
  parse "https://example.com" = Some "example.com" ->
  extractRootDomain parse "https://www.Example.com/path" = "example.com"
  /\ extractRootDomain parse "example.com" = "example.com"
  /\ extractRootDomain parse EmptyString = EmptyString
  /\ (forall url, hasScheme url = false -> withScheme url = "https://" ++ url)
  /\ (forall url, hasScheme url = true -> withScheme url = url)
  /\ (forall domain, stripWww ("www." ++ domain) = domain)
  /\ (forall url hostname,
         url <> EmptyString -> parse (withScheme url) = Some hostname ->
         extractRootDomain parse url = stripWww (JS.toLowerCase hostname))
  /\ (forall url,
         url <> EmptyString -> parse (withScheme url) = None ->
         exists guess,
           regexGuess (withScheme url) = Some guess
           /\ extractRootDomain parse url = JS.toLowerCase guess).
Proof.
  intros H1 H2. repeat split.
  - unfold extractRootDomain.
    change (withScheme "https://www.Example.com/path")
      with "https://www.Example.com/path".
    cbv zeta. rewrite H1. reflexivity.
  - unfold extractRootDomain.
    change (withScheme "example.com") with "https://example.com".
    cbv zeta. rewrite H2. reflexivity.
  - intros url H. unfold withScheme. now rewrite H.
  - intros url H. unfold withScheme. now rewrite H.
  - intros url hostname Hne Hp. unfold extractRootDomain.
    rewrite truthy_nonempty by assumption. simpl. now rewrite Hp.
  - intros url Hne Hp. destruct (regexGuess_withScheme url) as [g Hg].
    exists g. split; auto.
    unfold extractRootDomain. rewrite truthy_nonempty by assumption. simpl.
    now rewrite Hp, Hg.
Qed.

Lemma extractRootDomain_spec_witness :
  extractRootDomain plainHostname "https://www.Example.com/path" = "example.com".
Proof.
  refine (proj1 (extractRootDomain_spec plainHostname _ _)).
  - vm_compute. reflexivity.
  - vm_compute. reflexivity.
Defined.

(** ** Server-side analysis *)

Lemma filter_indexed_length {A : Type} (p : A -> bool) (l : list A) :
  List.length (filter (fun ia => p (snd ia)) (indexed l))
  = List.length (filter p l).
Proof.
  unfold indexed. generalize 0 as s.
  induction l as [|x l IH]; intros s; simpl; auto.
  destruct (p x); simpl; now rewrite IH.
Qed.

Lemma validationResults_length mappings data :
  List.length (validationResults (map (formatItem mappings) data))
  = List.length (invalidRows mappings data).
Proof.
  unfold validationResults, invalidRows.
  rewrite (filter_indexed_length (fun it => negb (appItemSchema_ok it))).
  induction data as [|row data IH]; simpl; auto.
  change (appItemSchema_ok (formatItem mappings row))
    with (appSchema_ok (formatRow mappings row)).
  destruct (appSchema_ok (formatRow mappings row)); simpl; now rewrite IH.
Qed.

(** X1. [processImport] succeeds exactly when the rows pass the form's
    own validation and every remote resolution carries its field marks.
    On a validation failure it reports all rows as analyzed, no
    duplicate, and one error line per invalid row; on success it reports
    all rows and one duplicate per remote resolution; when the debug log
    throws it reports nothing analyzed and the one error message. *)
Theorem processImport_outcome
    (issuesJSON : ImportItem -> string) (typeError : string)
    (data : list Row) (mappings : Mappings) (rr : RemoteResolutions) :
  let r := processImport issuesJSON typeError data mappings rr in
  success r = validateData mappings data && resolutionsLoggable rr
  /\ (validateData mappings data = false ->
      analyzed r = List.length data /\ ir_duplicatesFound r = 0
      /\ List.length (errors r) = List.length (invalidRows mappings data)
      /\ message r = "Validation failed for some records")
  /\ (success r = true ->
      analyzed r = List.length data
      /\ ir_duplicatesFound r = List.length rr /\ errors r = [])
  /\ (validateData mappings data = true -> resolutionsLoggable rr = false ->
      analyzed r = 0 /\ ir_duplicatesFound r = 0 /\ errors r = [typeError]
      /\ message r = "Analysis failed").
Proof.
  intros r. unfold r, processImport, validateData.
  pose proof (validationResults_length mappings data) as Hlen.
  destruct (validationResults (map (formatItem mappings) data)) as [|v vs] eqn:Ev;
    simpl in Hlen; rewrite <- Hlen.
  - destruct (resolutionsLoggable rr) eqn:El; simpl.
    + repeat split; try discriminate; auto.
      * now rewrite length_map.
      * unfold JS.keys. now rewrite length_map.
    + repeat split; try discriminate; auto.
  - simpl. repeat split; try discriminate; auto.
    + now rewrite length_map.
    + now rewrite !length_map.
Qed.

(** ** Inline correction *)

Lemma set_same_value {V : Type} (o : JS.obj V) k v :
  JS.get o k = Some v -> JS.set o k v = o.
Proof.
  induction o as [|[k' v'] o IH]; simpl; [discriminate|].
  destruct (String.eqb k' k) eqn:E.
  - now intros [= ->].
  - intros H. now rewrite IH.
Qed.

Lemma findIndex_some {A : Type} (p : A -> bool) (l : list A) i :
  findIndex p l = Some i -> exists x, nth_error l i = Some x /\ p x = true.
Proof.
  revert i. induction l as [|x l IH]; intros i; simpl; [discriminate|].
  destruct (p x) eqn:E.
  - intros [= <-]. exists x. simpl. auto.
  - destruct (findIndex p l) as [j|]; simpl; [|discriminate].
    intros [= <-]. simpl. auto.
Qed.

Lemma updateAt_length {A : Type} i (f : A -> A) l :
  List.length (updateAt i f l) = List.length l.
Proof.
  revert i. induction l as [|x l IH]; intros [|i]; simpl; auto.
Qed.

Lemma updateAt_nth {A : Type} i (f : A -> A) l :
  nth_error (updateAt i f l) i = option_map f (nth_error l i).
Proof.
  revert i. induction l as [|x l IH]; intros [|i]; simpl; auto.
Qed.

Lemma updateAt_map {A B : Type} (h : A -> B) i (f : A -> A) l :
  (forall x, nth_error l i = Some x -> h (f x) = h x) ->
  map h (updateAt i f l) = map h l.
Proof.
  revert i. induction l as [|x l IH]; intros [|i] H; simpl; auto.
  - now rewrite H.
  - now rewrite IH.
Qed.

Lemma updateAt_same {A : Type} i (f : A -> A) l :
  (forall x, nth_error l i = Some x -> f x = x) -> updateAt i f l = l.
Proof.
  revert i. induction l as [|x l IH]; intros [|i] H; simpl; auto.
  - now rewrite H.
  - now rewrite IH.
Qed.

Lemma rowValue_of_readData row k :
  rowValue row k = match readData row k with
                   | CString s => s
                   | _ => EmptyString
                   end.
Proof.
  unfold rowValue, readData. now destruct (JS.get row k) as [[s|]|].
Qed.

Lemma invalidRows_length_by_names mappings (data data' : list Row) :
  map (fun row => readData row (JS.prop_key (JS.get mappings "appName"))) data'
  = map (fun row => readData row (JS.prop_key (JS.get mappings "appName"))) data ->
  List.length (invalidRows mappings data')
  = List.length (invalidRows mappings data).
Proof.
  unfold invalidRows. revert data'.
  induction data as [|row data IH]; intros [|row' data'] H; simpl in *;
    try discriminate; auto.
  injection H as Hrow Hrest.
  assert (Hok : appSchema_ok (formatRow mappings row')
                = appSchema_ok (formatRow mappings row)).
  { unfold appSchema_ok. rewrite !formatRow_appName. unfold cell.
    now rewrite !rowValue_of_readData, Hrow. }
  rewrite Hok. destruct (appSchema_ok (formatRow mappings row)); simpl;
    now rewrite (IH data').
Qed.

Lemma strictEq_string a s : strictEq a (CString s) = true -> a = CString s.
Proof.
  destruct a; simpl; try discriminate.
  intros H. apply String.eqb_eq in H. now subst.
Qed.

(** X2. Whatever field and value [handleDataCorrection] is given, the
    app-name cell of every row of [data] stays what it was: the row to
    update is looked up by the name the invalid row has after the edit.
    So an inline correction never changes which rows fail validation,
    and a correction of the app name itself leaves [data] untouched. *)
Theorem correction_never_changes_names
    (mappings : Mappings) (index : nat) (fld value : string)
    (invalid invalid' : list InvalidRow) (data data' : list Row) :
  handleDataCorrection mappings index fld value invalid data
  = Some (invalid', data') ->
  let nameKey := JS.prop_key (JS.get mappings "appName") in
  map (fun row => readData row nameKey) data'
  = map (fun row => readData row nameKey) data
  /\ List.length data' = List.length data
  /\ List.length (invalidRows mappings data')
     = List.length (invalidRows mappings data)
  /\ validateData mappings data' = validateData mappings data
  /\ (JS.prop_key (JS.get mappings fld) = nameKey -> data' = data).
Proof.
  intros H nameKey.
  assert (Hmain : map (fun row => readData row nameKey) data'
                  = map (fun row => readData row nameKey) data
                  /\ List.length data' = List.length data
                  /\ (JS.prop_key (JS.get mappings fld) = nameKey -> data' = data)).
  { unfold handleDataCorrection in H. fold nameKey in H.
    set (target := JS.prop_key (JS.get mappings fld)) in *.
    clearbody target nameKey.
    destruct (nth_error invalid index) as [o|] eqn:Eo; [|discriminate].
    assert (Hw : nth_error
                   (updateAt index
                      (fun o => JS.set o target (CString value)) invalid) index
                 = Some (JS.set o target (CString value)))
      by (rewrite (updateAt_nth (A := InvalidRow)), Eo; reflexivity).
    rewrite Hw in H.
    destruct (findIndex _ data) as [dataIndex|] eqn:Ef.
    - injection H as _ <-.
      apply findIndex_some in Ef as (row & Hrow & Heq).
      destruct (string_dec target nameKey) as [Ht|Ht].
      + assert (Hid : updateAt dataIndex
                        (fun row => JS.set row target (Some value)) data = data).
        { apply updateAt_same. intros x Hx.
          assert (Hxr : Some row = Some x)
            by exact (eq_trans (eq_sym Hrow) Hx).
          injection Hxr as <-. apply set_same_value.
          rewrite Ht in Heq. unfold readInvalid in Heq.
          rewrite get_set_same in Heq.
          apply strictEq_string in Heq. unfold readData in Heq.
          rewrite Ht.
          destruct (JS.get row nameKey) as [[s|]|]; simpl in Heq;
            try discriminate. now injection Heq as ->. }
        rewrite Hid. auto.
      + split; [|split].
        * apply updateAt_map. intros x _. unfold readData.
          now rewrite get_set_other.
        * apply updateAt_length.
        * intros Hc. contradiction.
    - injection H as _ <-. auto. }
  destruct Hmain as (Hmap & Hlen & Hsame).
  pose proof (invalidRows_length_by_names mappings data data' Hmap) as Hinv.
  repeat split; auto.
  unfold validateData. now rewrite Hinv.
Qed.

Lemma correction_never_changes_names_witness :
  let p := parseCSV namelessRow in
  validateData (p_mappings p)
    (snd (match namelessCorrected with Some st => st | None => ([], []) end))
  = validateData (p_mappings p) (p_data p).
Proof.
  intros p.
  refine (proj1 (proj2 (proj2 (proj2
            (correction_never_changes_names (p_mappings p) 0 "appName" "Fixed"
               (invalidData (p_mappings p) (p_data p))
               (fst (match namelessCorrected with
                     | Some st => st | None => ([], []) end))
               (p_data p)
               (snd (match namelessCorrected with
                     | Some st => st | None => ([], []) end))
               _))))).
  vm_compute. reflexivity.
Defined.

(** ** Survivors of the duplicates screen *)

Lemma action_is_merge {A : Type} (a : option string) (x y : A) :
  match a with
  | Some "merge" => x
  | _ => y
  end
  = if match a with
       | Some s => String.eqb s "merge"
       | None => false
       end then x else y.
Proof.
  destruct a as [s|]; [|reflexivity].
  destruct (String.eqb s "merge") eqn:E.
  - apply String.eqb_eq in E. now subst.
  - repeat (destruct s as [|[[] [] [] [] [] [] [] []] s];
            try reflexivity; try discriminate E).
Qed.

Lemma string_is_merge {A : Type} (s : string) (x y : A) :
  match s with
  | "merge" => x
  | _ => y
  end
  = if String.eqb s "merge" then x else y.
Proof. exact (action_is_merge (Some s) x y). Qed.

Lemma bulk_fold_get_other a (ix : DuplicateGroup -> nat) groups (acc : Resolutions) k :
  (forall g, In g groups -> key g <> k) ->
  JS.get (fold_left (fun acc g => JS.set acc (key g) (mkRes (Some a) (ix g) None))
                    groups acc) k
  = JS.get acc k.
Proof.
  revert acc. induction groups as [|g gs IH]; intros acc H; simpl; auto.
  rewrite IH by (intros g' Hg'; apply H; now right).
  apply get_set_other. apply H. now left.
Qed.

Lemma bulk_fold_get a (ix : DuplicateGroup -> nat) groups (acc : Resolutions) k :
  (exists g, In g groups /\ key g = k) ->
  exists g', In g' groups /\ key g' = k
             /\ JS.get (fold_left (fun acc g =>
                                     JS.set acc (key g) (mkRes (Some a) (ix g) None))
                                  groups acc) k
                = Some (mkRes (Some a) (ix g') None).
Proof.
  revert acc. induction groups as [|g gs IH]; intros acc (g0 & Hin & Hk).
  - destruct Hin.
  - simpl.
    destruct (existsb (fun g' => String.eqb (key g') k) gs) eqn:E.
    + apply existsb_exists in E as (g1 & Hg1 & Hk1).
      apply String.eqb_eq in Hk1.
      destruct (IH (JS.set acc (key g) (mkRes (Some a) (ix g) None)))
        as (g' & Hg' & Hkg' & Hget); [eauto|].
      exists g'. split; [now right|]. split; auto.
    + assert (Hnone : forall g', In g' gs -> key g' <> k).
      { intros g' Hg' Hkg'.
        assert (existsb (fun g' => String.eqb (key g') k) gs = true); [|congruence].
        apply existsb_exists. exists g'. split; auto. now apply String.eqb_eq. }
      destruct Hin as [Heq|Hin]; [|now apply Hnone in Hin].
      subst g0. exists g. split; [now left|]. split; [assumption|].
      rewrite bulk_fold_get_other by assumption.
      rewrite <- Hk. apply get_set_same.
Qed.

Lemma same_key_same_group mappings sel data g g' :
  In g (csvDuplicatesFound mappings sel data) ->
  In g' (csvDuplicatesFound mappings sel data) ->
  key g = key g' -> g = g'.
Proof.
  intros Hg Hg' Hk.
  apply csvDuplicatesFound_spec in Hg as (Hrec & _ & Hm).
  apply csvDuplicatesFound_spec in Hg' as (Hrec' & _ & Hm').
  destruct g as [k l m], g' as [k' l' m']. simpl in *.
  subst k' m m'. now rewrite Hrec, Hrec'.
Qed.

Lemma initialResolutions_get mappings sel data a g :
  In g (csvDuplicatesFound mappings sel data) ->
  JS.get (initialResolutions a (csvDuplicatesFound mappings sel data)) (key g)
  = Some (mkRes (Some a) (bulkIndex a g) None).
Proof.
  intros Hg. unfold initialResolutions.
  destruct (bulk_fold_get a (bulkIndex a) (csvDuplicatesFound mappings sel data)
              [] (key g)) as (g' & Hg' & Hk & Hget); [eauto|].
  assert (Heq : g = g')
    by exact (same_key_same_group _ _ _ _ _ Hg Hg' (eq_sym Hk)).
  subst g'. exact Hget.
Qed.

Lemma findGroup_member mappings sel data g i a :
  In g (csvDuplicatesFound mappings sel data) ->
  nth_error (appDataOf mappings data) i = Some a ->
  isMember i g = true ->
  findGroup (csvDuplicatesFound mappings sel data) i = Some g.
Proof.
  intros Hg Ha Hi. unfold findGroup.
  destruct (find (isMember i) (csvDuplicatesFound mappings sel data))
    as [g0|] eqn:E.
  - apply find_some in E as [Hg0 Hi0].
    f_equal. now apply (member_of_one_group mappings sel data g0 g i a).
  - apply (find_none _ _ E) in Hg. congruence.
Qed.

Lemma bulkIndex_merge g : bulkIndex "merge" g = firstIndex g.
Proof. reflexivity. Qed.

(** What both survivor filters answer for a member of a group right
    after the groups were computed under the bulk action. *)
Lemma keep_after_grouping mappings mf data s i a g :
  selectedMatchFields mf <> [] ->
  nth_error (appDataOf mappings data) i = Some a ->
  let s' := fst (checkForCsvDuplicates mappings mf data s) in
  In g (csvDuplicates s') -> isMember i g = true ->
  deduplicatedKeep (csvDuplicates s') (csvDuplicateResolutions s') i
  = Nat.eqb (bulkIndex (bulkDuplicateAction s) g) i
  /\ keepDecision (csvDuplicates s') (csvDuplicateResolutions s') i
     = Nat.eqb (bulkIndex (bulkDuplicateAction s) g) i.
Proof.
  intros Hsel Ha s' Hg Hi.
  assert (Hgroups : csvDuplicates s'
                    = csvDuplicatesFound mappings (selectedMatchFields mf) data)
    by (now apply checkForCsvDuplicates_groups).
  rewrite Hgroups in Hg.
  assert (Hres : csvDuplicateResolutions s'
                 = initialResolutions (bulkDuplicateAction s)
                     (csvDuplicatesFound mappings (selectedMatchFields mf) data)).
  { unfold s', checkForCsvDuplicates.
    destruct (selectedMatchFields mf) as [|f sel] eqn:E; [congruence|].
    destruct (csvDuplicatesFound mappings (f :: sel) data) eqn:Ef;
      [destruct Hg | reflexivity]. }
  unfold deduplicatedKeep, keepDecision.
  rewrite Hgroups, Hres.
  rewrite (findGroup_member _ _ _ _ _ _ Hg Ha Hi).
  rewrite (initialResolutions_get _ _ _ _ _ Hg). cbn [action selectedIndex].
  split; auto.
  rewrite string_is_merge.
  destruct (String.eqb (bulkDuplicateAction s) "merge") eqn:E; auto.
  apply String.eqb_eq in E. now rewrite E.
Qed.

Lemma appDataOf_indices mappings data :
  map _originalIndex (appDataOf mappings data) = seq 0 (List.length data).
Proof.
  unfold appDataOf, indexed. generalize 0 as s.
  induction data as [|row data IH]; intros s; simpl; auto.
  now rewrite IH.
Qed.

Lemma seq_strongly_sorted s n : StronglySorted lt (seq s n).
Proof.
  revert s. induction n as [|n IH]; intros s; simpl; constructor; auto.
  apply Forall_forall. intros x Hx. apply in_seq in Hx. lia.
Qed.

Lemma filter_keeps_sorted {A : Type} (f : A -> nat) (p : A -> bool) (l : list A) :
  StronglySorted lt (map f l) -> StronglySorted lt (map f (filter p l)).
Proof.
  induction l as [|x l IH]; simpl; auto.
  intros H. inversion H as [|? ? Hs Hall]; subst.
  destruct (p x); simpl; auto.
  constructor; auto.
  rewrite Forall_forall in *. intros y Hy. apply Hall.
  apply in_map_iff in Hy as (z & <- & Hz).
  apply filter_In in Hz as [Hz _]. now apply in_map.
Qed.

Lemma last_in (l : list nat) : l <> [] -> In (last l 0) l.
Proof.
  induction l as [|x [|y l] IH]; intros H.
  - congruence.
  - now left.
  - right. apply IH. discriminate.
Qed.

Lemma sorted_bounds (l : list nat) x :
  StronglySorted lt l -> In x l -> hd 0 l <= x /\ x <= last l 0.
Proof.
  intros Hs. revert x. induction Hs as [|y l Hs IH Hall]; intros x Hx.
  - destruct Hx.
  - rewrite Forall_forall in Hall. simpl hd.
    destruct l as [|z l].
    + destruct Hx as [<-|[]]. simpl. lia.
    + change (last (y :: z :: l) 0) with (last (z :: l) 0).
      assert (Hz : In (last (z :: l) 0) (z :: l))
        by (apply last_in; discriminate).
      destruct Hx as [<-|Hx].
      * apply Hall in Hz. lia.
      * destruct (IH x Hx) as [_ Hle]. apply Hall in Hx. lia.
Qed.

Lemma sorted_NoDup (l : list nat) : StronglySorted lt l -> NoDup l.
Proof.
  induction 1 as [|y l Hs IH Hall]; constructor; auto.
  rewrite Forall_forall in Hall. intros Hy. apply Hall in Hy. lia.
Qed.

Lemma group_indices_sorted mappings sel data g :
  In g (csvDuplicatesFound mappings sel data) ->
  StronglySorted lt (map _originalIndex (records g)).
Proof.
  intros Hg. apply csvDuplicatesFound_spec in Hg as (Hrec & _ & _).
  rewrite Hrec. apply filter_keeps_sorted.
  rewrite appDataOf_indices. apply seq_strongly_sorted.
Qed.

Lemma isMember_indices i g :
  isMember i g = true <-> In i (map _originalIndex (records g)).
Proof.
  rewrite isMember_spec, in_map_iff.
  split; intros (r & H1 & H2); exists r; auto.
Qed.

Lemma firstIndex_hd g : firstIndex g = hd 0 (map _originalIndex (records g)).
Proof. unfold firstIndex. now destruct (records g). Qed.

(** The earliest and the latest member of a group. *)
Lemma group_first_last mappings sel data g :
  In g (csvDuplicatesFound mappings sel data) ->
  isMember (firstIndex g) g = true
  /\ isMember (lastIndex g) g = true
  /\ firstIndex g < lastIndex g
  /\ NoDup (map _originalIndex (records g))
  /\ forall i, isMember i g = true ->
       firstIndex g <= i /\ i <= lastIndex g /\ i < List.length data.
Proof.
  intros Hg.
  pose proof (group_indices_sorted _ _ _ _ Hg) as Hs.
  pose proof Hg as Hspec.
  apply csvDuplicatesFound_spec in Hspec as (Hrec & Hlen & _).
  rewrite firstIndex_hd. unfold lastIndex.
  set (l := map _originalIndex (records g)) in *.
  assert (Hl : 2 <= List.length l) by (unfold l; now rewrite length_map).
  assert (Hfirst : In (hd 0 l) l) by (destruct l; simpl in *; [lia | now left]).
  assert (Hlast : In (last l 0) l)
    by (apply last_in; destruct l; simpl in *; [lia | discriminate]).
  split; [now apply isMember_indices|].
  split; [now apply isMember_indices|].
  split.
  - destruct l as [|x [|y l']]; simpl in Hl; try lia.
    inversion Hs as [|? ? Hs' Hall]; subst.
    rewrite Forall_forall in Hall.
    assert (Hy : In (last (x :: y :: l') 0) (y :: l')).
    { change (last (x :: y :: l') 0) with (last (y :: l') 0).
      apply last_in. discriminate. }
    apply Hall in Hy. simpl hd. lia.
  - split; [now apply sorted_NoDup|].
    intros i Hi. apply isMember_indices in Hi. fold l in Hi.
    destruct (sorted_bounds l i Hs Hi) as [H1 H2].
    repeat split; auto.
    unfold l in Hi. rewrite Hrec in Hi.
    apply in_map_iff in Hi as (r & <- & Hr).
    apply filter_In in Hr as [Hr _].
    apply (in_map _originalIndex) in Hr.
    rewrite appDataOf_indices in Hr. apply in_seq in Hr. lia.
Qed.

Lemma indexed_bound {A : Type} (l : list A) i x :
  In (i, x) (indexed l) -> i < List.length l.
Proof.
  unfold indexed. intros H. apply in_combine_l in H. apply in_seq in H. lia.
Qed.

Lemma appDataOf_defined mappings data i :
  i < List.length data -> exists a, nth_error (appDataOf mappings data) i = Some a.
Proof.
  intros Hi. rewrite appDataOf_nth.
  destruct (nth_error data i) eqn:E; simpl; eauto.
  apply nth_error_None in E. lia.
Qed.

Lemma filter_eqb_one (l : list nat) b :
  NoDup l -> In b l -> List.length (filter (Nat.eqb b) l) = 1.
Proof.
  induction l as [|x l IH]; intros Hnd Hin; [destruct Hin|].
  inversion Hnd as [|? ? Hx Hnd']; subst. simpl.
  destruct (Nat.eqb b x) eqn:E.
  - apply Nat.eqb_eq in E. subst x. simpl. f_equal.
    assert (Hnone : filter (Nat.eqb b) l = []).
    { destruct (filter (Nat.eqb b) l) as [|y f] eqn:Ef; auto.
      assert (Hy : In y (filter (Nat.eqb b) l)) by (rewrite Ef; now left).
      apply filter_In in Hy as [Hy Hb]. apply Nat.eqb_eq in Hb. subst y.
      contradiction. }
    now rewrite Hnone.
  - apply IH; auto. destruct Hin as [->|Hin]; auto.
    now rewrite Nat.eqb_refl in E.
Qed.

(** X3. When every group a row belongs to has a resolution, and every
    [merge] resolution has the group's first record selected, the filter
    of [handleImport] keeps the rows that [checkForDuplicates] looked up:
    the records of the payload are the formatted deduplicated rows. *)
Theorem payload_rows_are_looked_up_rows
    (parse : UrlParser) (mappings : Mappings)
    (groups : list DuplicateGroup) (res : Resolutions) (data : list Row) :
  (forall index g,
      index < List.length data -> findGroup groups index = Some g ->
      exists r, JS.get res (key g) = Some r
                /\ (action r = Some "merge" -> selectedIndex r = firstIndex g)) ->
  map w_fields (formattedRecords parse mappings groups res data)
  = map (formatRow mappings) (deduplicatedData groups res data).
Proof.
  intros H. unfold formattedRecords, deduplicatedData.
  rewrite !map_map.
  rewrite (filter_ext_in
             (fun ir => keepDecision groups res (fst ir))
             (fun ir => deduplicatedKeep groups res (fst ir))).
  - reflexivity.
  - intros [i row] Hin. simpl. apply indexed_bound in Hin.
    unfold keepDecision, deduplicatedKeep.
    destruct (findGroup groups i) as [g|] eqn:Eg; auto.
    destruct (H i g Hin Eg) as (r & Hr & Hm). rewrite Hr.
    rewrite action_is_merge.
    destruct (action r) as [s|]; auto.
    destruct (String.eqb s "merge") eqn:Es; auto.
    apply String.eqb_eq in Es. subst s. now rewrite Hm.
Qed.

Lemma payload_rows_are_looked_up_rows_witness :
  let p := parseCSV twoSameNames in
  let s := screenFor "keepLast" in
  map w_fields (formattedRecords plainHostname (p_mappings p) (csvDuplicates s)
                                 (csvDuplicateResolutions s) (p_data p))
  = map (formatRow (p_mappings p))
        (deduplicatedData (csvDuplicates s) (csvDuplicateResolutions s)
                          (p_data p)).
Proof.
  intros p s.
  apply (payload_rows_are_looked_up_rows plainHostname (p_mappings p)
           (csvDuplicates s) (csvDuplicateResolutions s) (p_data p)).
  intros index g Hlt Hg.
  destruct index as [|[|index]]; [| |vm_compute in Hlt; lia];
    vm_compute in Hg; injection Hg as <-;
    (eexists; split; [vm_compute; reflexivity | discriminate]).
Defined.

(** X4. Right after the groups are computed under the bulk action, a row
    that belongs to no group passes both survivor filters, and a row that
    belongs to a group passes them exactly when its index is the one the
    bulk action selects in that group. *)
Theorem survivors_after_grouping
    (mappings : Mappings) (mf : DuplicateMatchFields) (data : list Row)
    (s : DedupState) (i : nat) (a : IndexedAppData) :
  selectedMatchFields mf <> [] ->
  nth_error (appDataOf mappings data) i = Some a ->
  let s' := fst (checkForCsvDuplicates mappings mf data s) in
  let groups := csvDuplicates s' in
  let res := csvDuplicateResolutions s' in
  (findGroup groups i = None ->
   deduplicatedKeep groups res i = true /\ keepDecision groups res i = true)
  /\ (forall g, In g groups -> isMember i g = true ->
        findGroup groups i = Some g
        /\ deduplicatedKeep groups res i
           = Nat.eqb (bulkIndex (bulkDuplicateAction s) g) i
        /\ keepDecision groups res i
           = Nat.eqb (bulkIndex (bulkDuplicateAction s) g) i).
Proof.
  intros Hsel Ha s' groups res. split.
  - apply ungrouped_row_is_kept.
  - intros g Hg Hi.
    destruct (keep_after_grouping mappings mf data s i a g Hsel Ha Hg Hi)
      as [H1 H2].
    repeat split; auto.
    unfold groups in *. unfold s' in *.
    rewrite checkForCsvDuplicates_groups in * by assumption.
    now apply (findGroup_member _ _ _ _ _ a).
Qed.

Lemma survivors_after_grouping_witness :
  let p := parseCSV twoSameNames in
  let s' := fst (checkForCsvDuplicates (p_mappings p) defaultMatchFields
                   (p_data p) initialDedup) in
  let g := hd (mkGroup EmptyString [] []) (csvDuplicates s') in
  keepDecision (csvDuplicates s') (csvDuplicateResolutions s') 1
  = Nat.eqb (bulkIndex "keepFirst" g) 1.
Proof.
  intros p s' g.
  refine (proj2 (proj2 (proj2
            (survivors_after_grouping (p_mappings p) defaultMatchFields
               (p_data p) initialDedup 1
               (mkIndexed (formatRow (p_mappings p)
                             [("App Name", Some "A"); ("App ID", Some "2")]) 1)
               _ _) g _ _))).
  - vm_compute. discriminate.
  - vm_compute. reflexivity.
  - vm_compute. now left.
  - vm_compute. reflexivity.
Defined.

(** X5. In every group of the output the record chosen by [keepFirst]
    (and by [skip] and [merge]) is the member that comes first in the
    file and the one chosen by [keepLast] is the member that comes last;
    the two are different rows, no row occurs twice in a group, and every
    member is a row of the file. *)
Theorem bulk_choice_is_earliest_or_latest
    (mappings : Mappings) (sel : list field) (data : list Row)
    (g : DuplicateGroup) :
  In g (csvDuplicatesFound mappings sel data) ->
  isMember (bulkIndex "keepFirst" g) g = true
  /\ isMember (bulkIndex "keepLast" g) g = true
  /\ bulkIndex "skip" g = bulkIndex "keepFirst" g
  /\ bulkIndex "merge" g = bulkIndex "keepFirst" g
  /\ bulkIndex "keepFirst" g < bulkIndex "keepLast" g
  /\ NoDup (map _originalIndex (records g))
  /\ forall i, isMember i g = true ->
       bulkIndex "keepFirst" g <= i /\ i <= bulkIndex "keepLast" g
       /\ i < List.length data.
Proof.
  intros Hg.
  destruct (group_first_last mappings sel data g Hg)
    as (H1 & H2 & H3 & H4 & H5).
  change (bulkIndex "keepFirst" g) with (firstIndex g).
  change (bulkIndex "keepLast" g) with (lastIndex g).
  change (bulkIndex "skip" g) with (firstIndex g).
  change (bulkIndex "merge" g) with (firstIndex g).
  repeat split; auto; now apply H5.
Qed.

Lemma bulk_choice_is_earliest_or_latest_witness :
  let p := parseCSV twoSameNames in
  let g := hd (mkGroup EmptyString [] [])
              (csvDuplicatesFound (p_mappings p) [appName] (p_data p)) in
  bulkIndex "keepFirst" g < bulkIndex "keepLast" g.
Proof.
  intros p g.
  refine (proj1 (proj2 (proj2 (proj2 (proj2
            (bulk_choice_is_earliest_or_latest (p_mappings p) [appName]
               (p_data p) g _)))))).
  vm_compute. now left.
Defined.

Lemma bulkIndex_member mappings sel data g a :
  In g (csvDuplicatesFound mappings sel data) ->
  In (bulkIndex a g) (map _originalIndex (records g)).
Proof.
  intros Hg.
  destruct (group_first_last mappings sel data g Hg) as (H1 & H2 & _).
  apply isMember_indices in H1, H2.
  unfold bulkIndex.
  destruct (String.eqb a "keepFirst"); auto.
  destruct (String.eqb a "keepLast"); auto.
Qed.

(** X6. Right after the groups are computed, whatever the bulk action
    ([skip] included), each group has exactly one member that passes the
    filter of [checkForDuplicates] and exactly one that passes the filter
    of [handleImport]. *)
Theorem one_survivor_per_group
    (mappings : Mappings) (mf : DuplicateMatchFields) (data : list Row)
    (s : DedupState) (g : DuplicateGroup) :
  selectedMatchFields mf <> [] ->
  let s' := fst (checkForCsvDuplicates mappings mf data s) in
  In g (csvDuplicates s') ->
  List.length (filter (deduplicatedKeep (csvDuplicates s')
                                        (csvDuplicateResolutions s'))
                      (map _originalIndex (records g))) = 1
  /\ List.length (filter (keepDecision (csvDuplicates s')
                                       (csvDuplicateResolutions s'))
                         (map _originalIndex (records g))) = 1.
Proof.
  intros Hsel s' Hg.
  assert (Hg' : In g (csvDuplicatesFound mappings (selectedMatchFields mf) data)).
  { unfold s' in Hg. now rewrite checkForCsvDuplicates_groups in Hg. }
  destruct (group_first_last _ _ _ _ Hg') as (_ & _ & _ & Hnd & Hb).
  pose proof (bulkIndex_member _ _ _ _ (bulkDuplicateAction s) Hg') as Hin.
  assert (Hext : forall i, In i (map _originalIndex (records g)) ->
                   deduplicatedKeep (csvDuplicates s') (csvDuplicateResolutions s') i
                   = Nat.eqb (bulkIndex (bulkDuplicateAction s) g) i
                   /\ keepDecision (csvDuplicates s') (csvDuplicateResolutions s') i
                      = Nat.eqb (bulkIndex (bulkDuplicateAction s) g) i).
  { intros i Hi. apply isMember_indices in Hi.
    destruct (Hb i Hi) as (_ & _ & Hlt).
    destruct (appDataOf_defined mappings data i Hlt) as [a Ha].
    now apply (keep_after_grouping mappings mf data s i a g). }
  split.
  - rewrite (filter_ext_in _ (Nat.eqb (bulkIndex (bulkDuplicateAction s) g)));
      [now apply filter_eqb_one | intros i Hi; now apply Hext].
  - rewrite (filter_ext_in _ (Nat.eqb (bulkIndex (bulkDuplicateAction s) g)));
      [now apply filter_eqb_one | intros i Hi; now apply Hext].
Qed.

Lemma one_survivor_per_group_witness :
  let s' := screenFor "skip" in
  let g := hd (mkGroup EmptyString [] []) (csvDuplicates s') in
  List.length (filter (deduplicatedKeep (csvDuplicates s')
                                        (csvDuplicateResolutions s'))
                      (map _originalIndex (records g))) = 1.
Proof.
  intros s' g.
  refine (proj1 (one_survivor_per_group
                   (p_mappings (parseCSV twoSameNames)) defaultMatchFields
                   (p_data (parseCSV twoSameNames))
                   (bulkActionChange "skip" initialDedup) g _ _)).
  - vm_compute. discriminate.
  - vm_compute. now left.
Defined.

(** ** Match-field selection: the key of the recomputation *)

Lemma insertSorted_in x y l : In y (insertSorted x l) <-> y = x \/ In y l.
Proof.
  induction l as [|z l IH]; simpl.
  - intuition.
  - destruct (String.leb x z); simpl; [intuition|].
    rewrite IH. intuition.
Qed.

Lemma sortStrings_in y l : In y (sortStrings l) <-> In y l.
Proof.
  induction l as [|x l IH]; simpl; [tauto|].
  rewrite insertSorted_in, IH. intuition.
Qed.

Lemma hasChar_append c a b :
  hasChar c (a ++ String c b) = true.
Proof.
  induction a as [|x a IH]; simpl.
  - now rewrite Ascii.eqb_refl.
  - rewrite IH. apply orb_true_r.
Qed.

Lemma cut_at_first_char c (a b x y : string) :
  hasChar c a = false -> hasChar c b = false ->
  a ++ String c x = b ++ String c y -> a = b /\ x = y.
Proof.
  revert b. induction a as [|u a IH]; intros [|v b]; simpl.
  - intros _ _ [= ->]. auto.
  - intros _ Hb [= <- _]. rewrite Ascii.eqb_refl in Hb. discriminate.
  - intros Ha _ [= -> _]. rewrite Ascii.eqb_refl in Ha. discriminate.
  - intros Ha Hb [= -> H].
    apply orb_false_iff in Ha as [_ Ha]. apply orb_false_iff in Hb as [_ Hb].
    destruct (IH b Ha Hb H) as [-> ->]. auto.
Qed.

(** Joining with commas loses nothing on non-empty names without comma. *)
Lemma join_comma_injective (l l' : list string) :
  (forall x, In x l -> hasChar "," x = false /\ x <> EmptyString) ->
  (forall x, In x l' -> hasChar "," x = false /\ x <> EmptyString) ->
  JS.join "," l = JS.join "," l' -> l = l'.
Proof.
  revert l'. induction l as [|x l IH]; intros l' Hl Hl' H.
  - destruct l' as [|y [|z l']]; auto; simpl in H.
    + destruct (Hl' y (or_introl eq_refl)) as [_ Hy]. congruence.
    + destruct y; discriminate.
  - assert (Hx := Hl x (or_introl eq_refl)).
    destruct l' as [|y l'].
    + destruct l as [|z l]; simpl in H.
      * destruct Hx. congruence.
      * destruct x; discriminate.
    + assert (Hy := Hl' y (or_introl eq_refl)).
      destruct l as [|z l], l' as [|w l'].
      * simpl in H. now subst.
      * change (x = y ++ String "," (JS.join "," (w :: l'))) in H.
        destruct Hx as [Hx _]. rewrite H, hasChar_append in Hx. discriminate.
      * change (x ++ String "," (JS.join "," (z :: l)) = y) in H.
        destruct Hy as [Hy _]. rewrite <- H, hasChar_append in Hy. discriminate.
      * change (x ++ String "," (JS.join "," (z :: l))
                = y ++ String "," (JS.join "," (w :: l'))) in H.
        apply cut_at_first_char in H as [-> H]; [|apply Hx|apply Hy].
        f_equal. apply IH; auto.
        -- intros u Hu. apply Hl. now right.
        -- intros u Hu. apply Hl'. now right.
Qed.

Lemma field_name_plain f :
  hasChar "," (field_name f) = false /\ field_name f <> EmptyString.
Proof. destruct f; split; try reflexivity; discriminate. Qed.

Lemma field_name_injective f g : field_name f = field_name g -> f = g.
Proof. destruct f, g; simpl; intros H; try reflexivity; discriminate H. Qed.

Lemma selected_iff mf f : In f (selectedMatchFields mf) <-> mf f = true.
Proof.
  unfold selectedMatchFields. rewrite filter_In.
  split; [tauto|]. intros H. split; auto.
  destruct f; simpl; tauto.
Qed.

(** X7. [getMatchFieldsKey] is a faithful key of the selection: two
    states of the match-field check boxes have the same key exactly when
    they tick the same fields.  In particular a change that sets a box to
    the value it already has leaves the key as it is. *)
Theorem matchFieldsKey_identifies_selection (mf mf' : DuplicateMatchFields) :
  (getMatchFieldsKey mf = getMatchFieldsKey mf' <-> forall f, mf f = mf' f)
  /\ (forall f, getMatchFieldsKey (handleMatchFieldChange f (Some (mf f)) mf)
                = getMatchFieldsKey mf).
Proof.
  assert (Hback : forall a b : DuplicateMatchFields,
             (forall f, a f = b f) -> getMatchFieldsKey a = getMatchFieldsKey b).
  { intros a b H. unfold getMatchFieldsKey, selectedMatchFields.
    now rewrite (filter_ext a b H). }
  split; [split|].
  - intros Hkey f.
    unfold getMatchFieldsKey in Hkey.
    apply join_comma_injective in Hkey.
    + assert (Hin : forall m : DuplicateMatchFields,
                 m f = true
                 <-> In (field_name f)
                        (sortStrings (map field_name (selectedMatchFields m)))).
      { intros m. rewrite sortStrings_in, <- selected_iff, in_map_iff.
        split.
        - intros H. exists f. auto.
        - intros (g & Hg & Hin). apply field_name_injective in Hg. now subst. }
      destruct (mf f) eqn:E, (mf' f) eqn:E'; auto.
      * apply Hin in E. rewrite Hkey in E. apply Hin in E. congruence.
      * apply Hin in E'. rewrite <- Hkey in E'. apply Hin in E'. congruence.
    + intros x Hx. apply (proj1 (sortStrings_in _ _)) in Hx.
      apply in_map_iff in Hx as (g & <- & _). apply field_name_plain.
    + intros x Hx. apply (proj1 (sortStrings_in _ _)) in Hx.
      apply in_map_iff in Hx as (g & <- & _). apply field_name_plain.
  - apply Hback.
  - intros f. apply Hback. intros g. unfold handleMatchFieldChange.
    destruct (field_eqb g f) eqn:E; auto.
    unfold field_eqb in E. apply String.eqb_eq in E.
    apply field_name_injective in E. subst g. now destruct (mf f).
Qed.

(** ** Custom fields *)

Lemma importObjectState_keys values own k :
  importObjectState values own -> In k (JS.keys own) ->
  (exists f, field_name f = k) \/ k = "rootDomain" \/ k = "customfields".
Proof.
  intros Hs. revert k. induction Hs as [|own domain Hs IH|own v Hs IH]; intros k Hk.
  - left. unfold JS.keys, importObject in Hk. rewrite map_map in Hk.
    cbn [fst] in Hk. apply in_map_iff in Hk as (f & Hf & _). eauto.
  - unfold JS.keys in Hk. apply in_map_iff in Hk as (e & <- & He).
    apply in_set in He as [->|He]; auto.
    apply IH. unfold JS.keys. now apply in_map.
  - unfold JS.keys in Hk. apply in_map_iff in Hk as (e & <- & He).
    apply in_set in He as [->|He]; auto.
    apply IH. unfold JS.keys. now apply in_map.
Qed.

Lemma remoteCustomFields_entries proto mappings imported e :
  In e (remoteCustomFields proto mappings (Some imported)) ->
  snd e = orEmptyAny (readProperty proto imported (fst e))
  /\ fst e <> "__proto__"
  /\ exists k, In (k, fst e) mappings /\ JS.startsWith "custom_" k = true.
Proof.
  unfold remoteCustomFields.
  set (P := fun x : string * anyval =>
              snd x = orEmptyAny (readProperty proto imported (fst x))
              /\ fst x <> "__proto__"
              /\ exists k, In (k, fst x) mappings
                           /\ JS.startsWith "custom_" k = true).
  assert (Hgen : forall (m : Mappings) (acc : JS.obj anyval),
             (forall x, In x acc -> P x) ->
             (forall x, In x m -> In x mappings) ->
             forall x,
               In x (fold_left
                       (fun custom_fields e =>
                          if JS.startsWith "custom_" (fst e)
                          then if String.eqb (snd e) "__proto__"
                               then custom_fields
                               else JS.set custom_fields (snd e)
                                      (orEmptyAny
                                         (readProperty proto imported (snd e)))
                          else custom_fields) m acc) ->
               P x).
  { induction m as [|[k h] m IH]; intros acc Hacc Hsub x;
      cbn [fold_left fst snd]; auto.
    apply IH.
    - intros y Hy. destruct (JS.startsWith "custom_" k) eqn:Ek; auto.
      destruct (String.eqb h "__proto__") eqn:Eh; auto.
      apply in_set in Hy as [->|Hy]; auto.
      unfold P. cbn [fst snd]. split; auto. split.
      + now apply String.eqb_neq.
      + exists k. split; auto. apply Hsub. now left.
    - intros y Hy. apply Hsub. now right. }
  intros H. apply (Hgen mappings [] (fun x (Hx : In x []) => match Hx with end)
                        (fun x Hx => Hx) e H).
Qed.

(** X8. The custom fields attached to an updated or unchanged record are
    read from the import object by CSV header.  That object holds the ten
    canonical fields and, once [handleImport] has written into it under
    [replace], [rootDomain] and [customfields].  So the value of every
    custom field whose header is none of these names, and is not a name
    inherited from [Object.prototype], is the empty string. *)
Theorem remote_custom_fields_are_blank
    (proto : Prototype) (mappings : Mappings) (values : field -> anyval)
    (own : JS.obj anyval) (header : string) (v : anyval) :
  importObjectState values own ->
  JS.get (remoteCustomFields proto mappings (Some own)) header = Some v ->
  (forall f, field_name f <> header) ->
  header <> "rootDomain" -> header <> "customfields" ->
  proto header = AUndefined ->
  v = AString EmptyString
  /\ exists k, In (k, header) mappings /\ JS.startsWith "custom_" k = true.
Proof.
  intros Hs Hget Hf Hr Hc Hp. apply get_in in Hget.
  apply remoteCustomFields_entries in Hget as (Hv & _ & Hk).
  cbn [fst snd] in *. split; auto.
  assert (Hown : JS.get own header = None).
  { apply get_absent. intros Hin.
    destruct (importObjectState_keys values own header Hs Hin)
      as [[f Hfn]|[H|H]];
      [now apply (Hf f) | contradiction | contradiction]. }
  rewrite Hv. unfold readProperty. now rewrite Hown, Hp.
Qed.

Lemma remote_custom_fields_are_blank_witness :
  let p := parseCSV withNotes in
  AString EmptyString = AString EmptyString
  /\ exists k, In (k, "Notes") (p_mappings p)
               /\ JS.startsWith "custom_" k = true.
Proof.
  intros p.
  set (values := fun f : field =>
         AString (getField f (formatRow (p_mappings p)
                                [("App Name", Some "A");
                                 ("Notes", Some "remember me")]))).
  refine (remote_custom_fields_are_blank someProto (p_mappings p) values
            (JS.set (importObject values) "rootDomain" (AString "a.example"))
            "Notes" (AString EmptyString) _ _ _ _ _ _).
  - apply rootDomainWritten. apply stored.
  - vm_compute. reflexivity.
  - intros f. destruct f; discriminate.
  - discriminate.
  - discriminate.
  - reflexivity.
Defined.

Lemma startsWith_prefix p k :
  JS.startsWith p k = true -> k = p ++ dropChars (String.length p) k.
Proof.
  revert k. induction p as [|c p IH]; intros k; simpl.
  - reflexivity.
  - destruct k as [|d k]; [discriminate|]. simpl.
    intros H. apply andb_true_iff in H as [Hc Hp].
    apply Ascii.eqb_eq in Hc. subst d. f_equal. auto.
Qed.

Lemma startsWith_append p s : JS.startsWith p (p ++ s) = true.
Proof.
  induction p as [|c p IH]; simpl; auto.
  now rewrite Ascii.eqb_refl, IH.
Qed.

Lemma dropChars_append p s : dropChars (String.length p) (p ++ s) = s.
Proof. induction p as [|c p IH]; simpl; auto. Qed.

Lemma customFieldsOf_loop (row : Row) (m : Mappings) (acc : JS.obj string) name :
  JS.wf m ->
  JS.get (fold_left
            (fun custom_fields e =>
               if JS.startsWith "custom_" (fst e)
               then JS.set custom_fields (dropChars 7 (fst e))
                           (rowValue row (snd e))
               else custom_fields) m acc) name
  = match JS.get m ("custom_" ++ name) with
    | Some h => Some (rowValue row h)
    | None => JS.get acc name
    end.
Proof.
  revert acc. induction m as [|[k h] m IH]; intros acc Hwf; auto.
  unfold JS.wf, JS.keys in Hwf. simpl in Hwf.
  inversion Hwf as [|? ? Hnin Hwf']; subst.
  cbn [fold_left]. rewrite IH by exact Hwf'. cbn [fst snd JS.get].
  destruct (String.eqb k ("custom_" ++ name)) eqn:Ek.
  - apply String.eqb_eq in Ek. subst k.
    rewrite (get_absent m _ Hnin).
    rewrite startsWith_append.
    change 7 with (String.length "custom_"). rewrite dropChars_append.
    apply get_set_same.
  - destruct (JS.get m ("custom_" ++ name)); auto.
    destruct (JS.startsWith "custom_" k) eqn:Es; auto.
    apply get_set_other. intros Hd.
    apply startsWith_prefix in Es. change (String.length "custom_") with 7 in Es.
    rewrite Hd in Es. subst k. now rewrite String.eqb_refl in Ek.
Qed.

(** X9. For a name other than [__proto__], the custom fields of a new
    record hold an entry under that name exactly when the mapping has the
    key [custom_<name>]; its value is the cell of the mapped column, or
    the empty string when that cell is empty or undefined.  The mapped
    column is required to be a key of the row and not [__proto__], as it
    is for the rows and mappings that [parseCSV] builds. *)
Theorem new_record_custom_fields (mappings : Mappings) (row : Row) (name : string) :
  JS.wf mappings ->
  name <> "__proto__" ->
  (forall h, JS.get mappings ("custom_" ++ name) = Some h ->
             h <> "__proto__" /\ JS.get row h <> None) ->
  JS.get (customFieldsOf mappings row) name
  = option_map (rowValue row) (JS.get mappings ("custom_" ++ name)).
Proof.
  intros Hwf _ _. unfold customFieldsOf.
  rewrite customFieldsOf_loop by assumption.
  now destruct (JS.get mappings ("custom_" ++ name)).
Qed.

Lemma new_record_custom_fields_witness :
  let p := parseCSV withNotes in
  JS.get (customFieldsOf (p_mappings p)
            [("App Name", Some "A"); ("Notes", Some "remember me")]) "Notes"
  = option_map (rowValue [("App Name", Some "A"); ("Notes", Some "remember me")])
               (JS.get (p_mappings p) "custom_Notes").
Proof.
  intros p.
  apply (new_record_custom_fields (p_mappings p)
           [("App Name", Some "A"); ("Notes", Some "remember me")] "Notes").
  - apply initialMappings_inv.
  - discriminate.
  - intros h Hh. vm_compute in Hh. injection Hh as <-.
    split; discriminate.
Defined.

(** ** Remote lookup *)

(** X10. The lookup reads the import through four fields only: two
    imports that agree on app name, app id, Google Play id and Sensor
    Tower id get the same answer.  When the store is configured, an
    import with none of the four, or a lookup without campaign id,
    answers "no duplicate" whatever the store holds. *)
Theorem lookup_reads_identity_fields_only
    (configured : bool) (remote : Remote) (n : nat) (a a' : AppData)
    (campaignId : option string) :
  d_appName a = d_appName a' /\ d_appId a = d_appId a'
  /\ d_googlePlayId a = d_googlePlayId a'
  /\ d_sensorTowerId a = d_sensorTowerId a' ->
  findAppDuplicates configured remote n a campaignId
  = findAppDuplicates configured remote n a' campaignId
  /\ (configured = true ->
      d_appName a = EmptyString -> d_appId a = EmptyString ->
      d_googlePlayId a = EmptyString -> d_sensorTowerId a = EmptyString ->
      findAppDuplicates configured remote n a' campaignId = Found [])
  /\ (configured = true ->
      campaignId = None \/ campaignId = Some EmptyString ->
      findAppDuplicates configured remote n a campaignId = Found []).
Proof.
  intros (H1 & H2 & H3 & H4).
  assert (Hc : matchConditions a = matchConditions a').
  { unfold matchConditions. now rewrite H1, H2, H3, H4. }
  unfold findAppDuplicates. rewrite Hc. repeat split.
  - intros -> E1 E2 E3 E4. simpl.
    destruct campaignId as [c|]; auto.
    destruct (negb (JS.truthy c)); auto.
    rewrite <- Hc. unfold matchConditions. now rewrite E1, E2, E3, E4.
  - intros -> [->| ->]; reflexivity.
Qed.

Lemma lookup_reads_identity_fields_only_witness :
  findAppDuplicates true secondLookupFails 1 importedB (Some "recX")
  = findAppDuplicates true secondLookupFails 1
      (mkAppData "B" "" "Someone" "Games" "FR" "" "" "" "" "7") (Some "recX").
Proof.
  refine (proj1 (lookup_reads_identity_fields_only true secondLookupFails 1
                   importedB
                   (mkAppData "B" "" "Someone" "Games" "FR" "" "" "" "" "7")
                   (Some "recX") _)).
  repeat split; reflexivity.
Defined.

Lemma checkRow_entries configured remote recordId mappings st row entry :
  In entry (duplicatesFound (checkRow configured remote recordId mappings st row)) ->
  In entry (duplicatesFound st)
  \/ (importData entry = formatRow mappings row
      /\ duplicates entry <> []
      /\ findAppDuplicates configured remote (lookups st)
                           (formatRow mappings row) recordId
         = Found (duplicates entry)
      /\ m_matchedOn entry = matchedFields (importData entry) (duplicates entry)).
Proof.
  unfold checkRow.
  destruct (findAppDuplicates configured remote (lookups st)
              (formatRow mappings row) recordId) as [msg|[|d ds]]; simpl; auto.
  intros H. apply in_app_or in H as [H|[<-|[]]]; auto.
  right. simpl. repeat split; auto. discriminate.
Qed.

Lemma checkRow_counts configured remote recordId mappings st row :
  let st' := checkRow configured remote recordId mappings st row in
  List.length (duplicatesFound st') + List.length (errorLog st')
  <= S (List.length (duplicatesFound st) + List.length (errorLog st)).
Proof.
  unfold checkRow.
  destruct (findAppDuplicates configured remote (lookups st)
              (formatRow mappings row) recordId) as [msg|[|d ds]]; simpl;
    rewrite ?length_app; simpl; lia.
Qed.

(** X11. Every entry of [duplicatesFound] stems from one row of the
    batch: it carries that row's formatted data, a non-empty list of
    remote records which is what the lookup returned for it, and the
    matched fields computed from the two.  A row yields at most one
    entry or one logged error. *)
Theorem found_entries_stem_from_rows
    (configured : bool) (remote : Remote) (recordId : option string)
    (mappings : Mappings) (rows : list Row) :
  let final := checkRows configured remote recordId mappings (mkLoop 0 [] []) rows in
  (forall entry, In entry (duplicatesFound final) ->
     duplicates entry <> []
     /\ m_matchedOn entry = matchedFields (importData entry) (duplicates entry)
     /\ exists row n,
          In row rows /\ n < List.length rows
          /\ importData entry = formatRow mappings row
          /\ findAppDuplicates configured remote n (formatRow mappings row)
                               recordId
             = Found (duplicates entry))
  /\ List.length (duplicatesFound final) + List.length (errorLog final)
     <= List.length rows.
Proof.
  intros final. unfold final, checkRows.
  assert (Hgen : forall rows st,
             let out := fold_left (checkRow configured remote recordId mappings)
                                  rows st in
             (forall entry, In entry (duplicatesFound out) ->
                In entry (duplicatesFound st)
                \/ (duplicates entry <> []
                    /\ m_matchedOn entry
                       = matchedFields (importData entry) (duplicates entry)
                    /\ exists row n,
                         In row rows
                         /\ lookups st <= n < lookups st + List.length rows
                         /\ importData entry = formatRow mappings row
                         /\ findAppDuplicates configured remote n
                                              (formatRow mappings row) recordId
                            = Found (duplicates entry)))
             /\ List.length (duplicatesFound out) + List.length (errorLog out)
                <= List.length (duplicatesFound st) + List.length (errorLog st)
                   + List.length rows).
  { clear rows final. induction rows as [|row rows IH]; intros st; simpl.
    - split; [auto | lia].
    - destruct (IH (checkRow configured remote recordId mappings st row))
        as [He Hc].
      pose proof (checkRow_counts configured remote recordId mappings st row)
        as Hstep.
      assert (Hl : lookups (checkRow configured remote recordId mappings st row)
                   = S (lookups st)).
      { unfold checkRow.
        now destruct (findAppDuplicates configured remote (lookups st)
                        (formatRow mappings row) recordId) as [msg|[|d ds]]. }
      split.
      + intros entry Hin. destruct (He entry Hin) as [Hprev|Hnew].
        * apply checkRow_entries in Hprev as [Hprev|(H1 & H2 & H3 & H4)]; auto.
          right. repeat split; auto.
          exists row, (lookups st). repeat split; auto; lia.
        * right. destruct Hnew as (H2 & H4 & row' & n & Hr & Hn & H1 & H3).
          repeat split; auto.
          exists row', n. rewrite Hl in Hn. repeat split; auto; lia.
      + cbv zeta in Hstep. lia. }
  destruct (Hgen rows (mkLoop 0 [] [])) as [He Hc]. simpl in *.
  split; [|lia].
  intros entry Hin. destruct (He entry Hin) as [[]|(H2 & H4 & row & n & Hr & Hn & H1 & H3)].
  repeat split; auto. exists row, n. repeat split; auto. lia.
Qed.

(** ** Remote resolutions at discovery *)

Lemma initialRemote_entries (found : list RemoteMatch) e :
  In e (initialRemoteResolutions found) ->
  snd e = defaultResolution
  /\ exists dup duplicate,
       In dup found /\ In duplicate (duplicates dup) /\ id duplicate = fst e.
Proof.
  unfold initialRemoteResolutions.
  set (P := fun (fs : list RemoteMatch) (x : string * DuplicateResolution) =>
              snd x = defaultResolution
              /\ exists dup duplicate,
                   In dup fs /\ In duplicate (duplicates dup)
                   /\ id duplicate = fst x).
  assert (Hinner : forall dup ds (acc : RemoteResolutions) fs,
             In dup fs -> (forall d, In d ds -> In d (duplicates dup)) ->
             (forall x, In x acc -> P fs x) ->
             forall x,
               In x (fold_left (fun acc' duplicate =>
                                  JS.set acc' (id duplicate)
                                    (mkRemoteRes Keep (Some defaultFieldResolutions)))
                               ds acc) -> P fs x).
  { intros dup ds. induction ds as [|d ds IH]; intros acc fs Hdup Hsub Hacc x;
      simpl; auto.
    apply IH; auto.
    - intros d' Hd'. apply Hsub. now right.
    - intros y Hy. apply in_set in Hy as [->|Hy]; auto.
      split; [reflexivity|]. exists dup, d. repeat split; auto.
      apply Hsub. now left. }
  assert (Houter : forall ms (acc : RemoteResolutions),
             (forall m, In m ms -> In m found) ->
             (forall x, In x acc -> P found x) ->
             forall x,
               In x (fold_left
                       (fun acc dup =>
                          fold_left (fun acc' duplicate =>
                                       JS.set acc' (id duplicate)
                                         (mkRemoteRes Keep
                                            (Some defaultFieldResolutions)))
                                    (duplicates dup) acc) ms acc) ->
               P found x).
  { induction ms as [|m ms IH]; intros acc Hsub Hacc x; simpl; auto.
    apply IH.
    - intros m' Hm'. apply Hsub. now right.
    - apply (Hinner m (duplicates m) acc found); auto. apply Hsub. now left. }
  intros H. apply (Houter found [] (fun m Hm => Hm)); auto. intros x [].
Qed.

Lemma updatedIds_all_keep (rr : RemoteResolutions) :
  (forall e, In e rr -> r_action (snd e) = Keep) -> updatedIds rr = [].
Proof.
  unfold updatedIds. induction rr as [|e l IH]; intros H; auto.
  simpl. rewrite (H e (or_introl eq_refl)).
  apply IH. intros x Hx. apply H. now right.
Qed.

(** X12. When [checkForDuplicates] reports duplicates, every remote
    resolution it stores is the default one (action [keep], all ten
    fields [existing]) and belongs to a remote record of some match: a
    summary drawn right then counts no updated record and one unchanged
    record per resolution. *)
Theorem discovery_keeps_everything
    (configured : bool) (remote : Remote) (recordId : option string)
    (mappings : Mappings) (groups : list DuplicateGroup) (res : Resolutions)
    (data : list Row) (s : RemoteState) :
  let out := checkForDuplicates configured remote recordId mappings groups res
                                data s in
  let s' := fst (fst out) in
  snd (fst out) = true ->
  (forall k r, JS.get (duplicateResolutions s') k = Some r ->
     r = defaultResolution
     /\ exists dup duplicate,
          In dup (st_duplicates s') /\ In duplicate (duplicates dup)
          /\ id duplicate = k)
  /\ updatedIds (duplicateResolutions s') = []
  /\ List.length (unchangedIds (duplicateResolutions s'))
     = List.length (duplicateResolutions s').
Proof.
  intros out s' Hflag.
  assert (Hs : duplicateResolutions s' = initialRemoteResolutions (st_duplicates s')).
  { unfold s', out in *. unfold checkForDuplicates in *.
    destruct recordId as [rid|]; [|discriminate].
    destruct (negb (JS.truthy rid)); [discriminate|].
    destruct (duplicatesFound _); [discriminate | reflexivity]. }
  rewrite Hs.
  assert (Hall : forall e, In e (initialRemoteResolutions (st_duplicates s')) ->
                           r_action (snd e) = Keep).
  { intros e He. apply initialRemote_entries in He as [-> _]. reflexivity. }
  assert (Hu : updatedIds (initialRemoteResolutions (st_duplicates s')) = [])
    by (now apply updatedIds_all_keep).
  split; [|split].
  - intros k r Hget. apply get_in in Hget.
    now apply initialRemote_entries in Hget.
  - exact Hu.
  - pose proof (remote_actions_split (initialRemoteResolutions (st_duplicates s')))
      as Hsplit.
    rewrite Hu in Hsplit. exact Hsplit.
Qed.

Lemma discovery_keeps_everything_witness :
  let p := parseCSV oneName in
  let out := checkForDuplicates true twoTwins (Some "recX") (p_mappings p)
                                [] [] (p_data p) (mkRemote [] []) in
  updatedIds (duplicateResolutions (fst (fst out))) = [].
Proof.
  intros p out.
  refine (proj1 (proj2
            (discovery_keeps_everything true twoTwins (Some "recX")
               (p_mappings p) [] [] (p_data p) (mkRemote [] []) _))).
  vm_compute. reflexivity.
Defined.

(** ** Parser and mapper: where each cell and each header goes *)

Section FoldSet.
Context {X V : Type} (kf : X -> string) (vf : X -> V).

Lemma fold_set_other (xs : list X) (acc : JS.obj V) k :
  ~ In k (map kf xs) ->
  JS.get (fold_left (fun m x => JS.set m (kf x) (vf x)) xs acc) k = JS.get acc k.
Proof.
  revert acc. induction xs as [|x xs IH]; intros acc Hn; simpl in *; auto.
  rewrite IH by tauto. apply get_set_other. tauto.
Qed.

Lemma fold_set_get (xs : list X) (acc : JS.obj V) x :
  NoDup (map kf xs) -> In x xs ->
  JS.get (fold_left (fun m x => JS.set m (kf x) (vf x)) xs acc) (kf x)
  = Some (vf x).
Proof.
  revert acc. induction xs as [|y xs IH]; intros acc Hnd Hin; [destruct Hin|].
  simpl in *. inversion Hnd as [|? ? Hy Hnd']; subst.
  destruct Hin as [->|Hin]; auto.
  rewrite fold_set_other by assumption. apply get_set_same.
Qed.

Lemma fold_set_defined (xs : list X) (acc : JS.obj V) k :
  JS.get (fold_left (fun m x => JS.set m (kf x) (vf x)) xs acc) k <> None
  <-> JS.get acc k <> None \/ In k (map kf xs).
Proof.
  revert acc. induction xs as [|x xs IH]; intros acc; simpl.
  - tauto.
  - rewrite IH. destruct (string_dec (kf x) k) as [<-|Hne].
    + rewrite get_set_same. split; [auto|]. intros _. left. discriminate.
    + rewrite get_set_other by assumption. tauto.
Qed.

Lemma fold_set_keys (xs : list X) (acc : JS.obj V) :
  NoDup (map kf xs) -> (forall x, In x xs -> ~ In (kf x) (JS.keys acc)) ->
  JS.keys (fold_left (fun m x => JS.set m (kf x) (vf x)) xs acc)
  = (JS.keys acc ++ map kf xs)%list.
Proof.
  revert acc. induction xs as [|x xs IH]; intros acc Hnd Hfresh; simpl.
  - now rewrite app_nil_r.
  - inversion Hnd as [|? ? Hx Hnd']; subst.
    rewrite IH; auto.
    + rewrite keys_set_new by (apply Hfresh; now left).
      now rewrite <- app_assoc.
    + intros y Hy. rewrite keys_set_new by (apply Hfresh; now left).
      intros Hin. apply in_app_or in Hin as [Hin|[Hin|[]]].
      * apply (Hfresh y); auto. now right.
      * apply Hx. rewrite Hin. now apply in_map.
Qed.
End FoldSet.

Lemma indexed_snd {A : Type} (l : list A) : map snd (indexed l) = l.
Proof.
  unfold indexed. generalize 0 as s.
  induction l as [|x l IH]; intros s; simpl; auto. now rewrite IH.
Qed.

Lemma indexed_in {A : Type} (l : list A) i x :
  nth_error l i = Some x -> In (i, x) (indexed l).
Proof.
  unfold indexed.
  assert (Hgen : forall l s i, nth_error l i = Some x ->
                               In (s + i, x) (combine (seq s (List.length l)) l)).
  { clear. induction l as [|y l IH]; intros s [|i]; simpl; try discriminate.
    - intros [= ->]. left. now rewrite Nat.add_0_r.
    - intros H. right. rewrite <- Nat.add_succ_comm. now apply IH. }
  apply (Hgen l 0 i).
Qed.

(** X13. With pairwise different headers, none of them [__proto__], the
    keys of a parsed row are the headers (JavaScript lists those that
    look like array indices first), and the cell under the [i]-th header
    is the trimmed [i]-th value of the line split at commas: [undefined]
    when the line has fewer values, while values beyond the last header
    are dropped. *)
Theorem parsed_row_cells (headers : list string) (line : string) :
  NoDup headers ->
  ~ In "__proto__" headers ->
  (forall k, In k (JS.keys (parseLine headers line)) <-> In k headers)
  /\ forall i h, nth_error headers i = Some h ->
       JS.get (parseLine headers line) h
       = Some (option_map JS.trim (nth_error (JS.split comma line) i)).
Proof.
  intros Hnd _. unfold parseLine.
  assert (Hk : NoDup (map snd (indexed headers))) by now rewrite indexed_snd.
  split.
  - intros k.
    rewrite (fold_set_keys snd
               (fun ih => option_map JS.trim
                            (nth_error (JS.split comma line) (fst ih))));
      auto.
    simpl. now rewrite indexed_snd.
  - intros i h Hi. apply indexed_in in Hi.
    apply (fold_set_get snd
             (fun ih => option_map JS.trim
                          (nth_error (JS.split comma line) (fst ih)))
             (indexed headers) [] (i, h)); auto.
Qed.

Lemma parsed_row_cells_witness :
  JS.get (parseLine ["App Name"; "App ID"; "Notes"] "A , 1") "App ID"
  = Some (option_map JS.trim (nth_error (JS.split comma "A , 1") 1)).
Proof.
  refine (proj2 (parsed_row_cells ["App Name"; "App ID"; "Notes"] "A , 1" _ _)
                1 "App ID" _).
  - repeat constructor; simpl; intuition discriminate.
  - simpl. intuition discriminate.
  - reflexivity.
Defined.

(** X14. When no two headers of the file are filed under the same key,
    the automatic mapping gives every header its slot: the mapping holds
    the header under its key, and the header occupies exactly one
    entry. *)
Theorem auto_mapping_maps_every_header (headers : list string) (h : string) :
  NoDup (map autoKey headers) -> In h headers ->
  JS.get (initialMappings headers) (autoKey h) = Some h
  /\ List.length (slots (initialMappings headers) h) = 1.
Proof.
  intros Hnd Hin.
  assert (Hget : JS.get (initialMappings headers) (autoKey h) = Some h)
    by (unfold initialMappings;
        now apply (fold_set_get autoKey (fun x => x) headers [] h)).
  split; auto.
  apply (slots_exactly_one _ (autoKey h)).
  - apply initialMappings_inv.
  - now apply get_in.
Qed.

Lemma auto_mapping_maps_every_header_witness :
  JS.get (initialMappings ["App Name"; "Notes"]) (autoKey "Notes") = Some "Notes".
Proof.
  refine (proj1 (auto_mapping_maps_every_header ["App Name"; "Notes"] "Notes" _ _)).
  - vm_compute. repeat constructor; simpl; intuition discriminate.
  - simpl. auto.
Defined.

Lemma autoKey_appName h :
  autoKey h = "appName" <-> JS.toLowerCase h = "app name".
Proof.
  unfold autoKey. split.
  - destruct (find _ availableFields) as [fld|] eqn:E.
    + apply find_some in E as [Hin Heq]. apply String.eqb_eq in Heq.
      intros Hv. rewrite <- Heq.
      simpl in Hin.
      repeat (destruct Hin as [<-|Hin]; [try discriminate Hv; reflexivity|]).
      destruct Hin.
    + intros H. discriminate H.
  - intros H. unfold availableFields. cbn [find label].
    change (JS.toLowerCase "App Name") with "app name".
    now rewrite H, String.eqb_refl.
Qed.

(** X15. Right after parsing, the required mapping is present (the
    "Next" button of the mapping step is enabled) exactly when some
    column is headed "App Name" in any letter case. *)
Theorem required_mapping_iff_name_column (content : string) :
  hasRequiredMappings (p_mappings (parseCSV content)) = true
  <-> exists h, In h (p_headers (parseCSV content))
                /\ JS.toLowerCase h = "app name".
Proof.
  unfold parseCSV. cbn [p_mappings p_headers].
  set (headers := map JS.trim _).
  unfold hasRequiredMappings.
  destruct (initialMappings_keyed headers) as [_ Hkeyed].
  split.
  - destruct (JS.get (initialMappings headers) "appName") as [h|] eqn:E;
      [|discriminate].
    intros _. pose proof (get_in _ _ _ E) as Hin.
    apply Hkeyed in Hin. simpl in Hin. symmetry in Hin.
    apply autoKey_appName in Hin.
    assert (Hdef : JS.get (initialMappings headers) "appName" <> None)
      by congruence.
    unfold initialMappings in Hdef.
    apply (fold_set_defined autoKey (fun x => x)) in Hdef as [Hdef|Hdef];
      [now simpl in Hdef|].
    apply in_map_iff in Hdef as (h' & Hk & Hh').
    exists h'. split; auto. now apply autoKey_appName.
  - intros (h & Hin & Hlow).
    assert (Hdef : JS.get (initialMappings headers) "appName" <> None).
    { unfold initialMappings.
      apply (fold_set_defined autoKey (fun x => x)). right.
      apply in_map_iff. exists h. split; auto. now apply autoKey_appName. }
    destruct (JS.get (initialMappings headers) "appName") as [h'|] eqn:E;
      [|congruence].
    apply get_in, Hkeyed in E. simpl in E. symmetry in E.
    apply autoKey_appName in E.
    destruct h' as [|c h']; [discriminate E | reflexivity].
Qed.

(** ** Domain extraction: the result is in lower case *)

Lemma lower_char_idem c : JS.lower_char (JS.lower_char c) = JS.lower_char c.
Proof.
  destruct c as [[] [] [] [] [] [] [] []]; reflexivity.
Qed.

Lemma toLowerCase_idem s : JS.toLowerCase (JS.toLowerCase s) = JS.toLowerCase s.
Proof.
  induction s as [|c s IH]; simpl; auto.
  now rewrite lower_char_idem, IH.
Qed.

Lemma toLowerCase_dropChars n s :
  JS.toLowerCase (dropChars n s) = dropChars n (JS.toLowerCase s).
Proof.
  revert s. induction n as [|n IH]; intros [|c s]; simpl; auto.
Qed.

(** X16. Whatever the URL parser answers, the root domain returned by
    [extractRootDomain] is in lower case: lowercasing it again changes
    nothing. *)
Theorem root_domain_is_lowercase (parse : UrlParser) (url : string) :
  JS.toLowerCase (extractRootDomain parse url) = extractRootDomain parse url.
Proof.
  unfold extractRootDomain.
  destruct (negb (JS.truthy url)); [reflexivity|]. cbv zeta.
  destruct (parse (withScheme url)) as [hostname|].
  - unfold stripWww.
    destruct (startsWithCI "www." (JS.toLowerCase hostname)).
    + now rewrite toLowerCase_dropChars, toLowerCase_idem.
    + apply toLowerCase_idem.
  - destruct (regexGuess_withScheme url) as [g ->]. apply toLowerCase_idem.
Qed.

(** ** Remote resolution engine: a merge without imported marks *)

Lemma merge_without_marks (imported : JS.obj jsval)
      (fr : JS.obj FieldResolution) (result : JS.obj jsval) :
  (forall e, In e fr -> snd e <> Imported) ->
  fold_left (applyFieldResolution imported) fr result = result.
Proof.
  revert result. induction fr as [|e fr IH]; intros result H; simpl; auto.
  rewrite IH by (intros x Hx; apply H; now right).
  unfold applyFieldResolution.
  pose proof (H e (or_introl eq_refl)) as He.
  destruct (snd e); auto. congruence.
Qed.

(** X17. A [merge] in which no field is marked [imported] returns the
    remote record exactly as a [keep] does.  This is the case of every
    newly found duplicate whose action is switched to [merge] before any
    field is marked. *)
Theorem merge_without_imported_marks_is_keep
    (existing imported : JS.obj jsval) (fr : JS.obj FieldResolution) :
  (forall e, In e fr -> snd e <> Imported) ->
  calculateFinalData (Some existing) (Some imported)
                     (Some (mkRemoteRes Merge (Some fr)))
  = Value existing
  /\ calculateFinalData (Some existing) (Some imported)
                        (Some (mkRemoteRes Merge (Some fr)))
     = calculateFinalData (Some existing) (Some imported)
                          (Some (mkRemoteRes Keep (Some fr))).
Proof.
  intros H. simpl. now rewrite merge_without_marks.
Qed.

Lemma merge_without_imported_marks_is_keep_witness :
  calculateFinalData (Some (appRecordObj (remoteTwin "rec1")))
                     (Some (appDataObj importedB))
                     (Some (mkRemoteRes Merge (Some defaultFieldResolutions)))
  = Value (appRecordObj (remoteTwin "rec1")).
Proof.
  refine (proj1 (merge_without_imported_marks_is_keep
                   (appRecordObj (remoteTwin "rec1")) (appDataObj importedB)
                   defaultFieldResolutions _)).
  intros e He. apply in_map_iff in He as (f & <- & _). discriminate.
Defined.

(** ** Duplicates screen: no displayed group is left without resolution *)

(** X18. In every state the duplicates screen can reach through its
    controls (re-grouping, bulk selector, per-group selector, record
    radio button, merge check box), each displayed group has a stored
    resolution, every stored resolution holds one of the four actions,
    and so does the bulk action. *)
Theorem displayed_groups_are_resolved (s : DedupState) :
  dedupReachable s ->
  covered s
  /\ actionsValid (csvDuplicateResolutions s)
  /\ isDuplicateAction (bulkDuplicateAction s) = true.
Proof.
  intros Hr.
  assert (Hinv : dedupInv s).
  { induction Hr as [|s e s' _ IH Hstep].
    - repeat split; simpl; auto.
      + intros k r. discriminate.
      + intros g [].
    - now apply (dedupStep_inv s e). }
  destruct Hinv as (Hb & Hv & Hc). auto.
Qed.

Lemma displayed_groups_are_resolved_witness :
  covered (screenFor "keepLast")
  /\ actionsValid (csvDuplicateResolutions (screenFor "keepLast"))
  /\ isDuplicateAction (bulkDuplicateAction (screenFor "keepLast")) = true.
Proof.
  apply displayed_groups_are_resolved.
  unfold screenFor.
  eapply reach_step; [|apply step_recheck].
  eapply reach_step; [apply reach_init|].
  apply step_bulk. reflexivity.
Defined.

(** ** Without a record id *)

(** X19. Without a record id (absent or empty), whatever the store
    holds and whether or not it is configured, [checkForDuplicates]
    reports no duplicate, leaves the remote state empty and records no
    lookup error (its only output is the warning that the URL carries no
    record id, which the model does not keep); the summary drawn from
    the resulting state counts every processed record as new and none as
    updated or unchanged. *)
Theorem without_record_id_all_new
    (parse : UrlParser) (configured : bool) (remote : Remote)
    (recordId : option string) (mappings : Mappings)
    (groups : list DuplicateGroup) (res : Resolutions) (data : list Row) :
  recordId = None \/ recordId = Some EmptyString ->
  let out := checkForDuplicates configured remote recordId mappings groups res
                                data (mkRemote [] []) in
  let sm := summary parse mappings groups res data (fst (fst out)) in
  out = (mkRemote [] [], false, [])
  /\ s_newApps sm = totalProcessed sm
  /\ s_updatedApps sm = 0 /\ s_unchangedApps sm = 0.
Proof.
  intros H out sm.
  assert (Hout : out = (mkRemote [] [], false, []))
    by (unfold out; destruct H as [-> | ->]; reflexivity).
  unfold sm. rewrite Hout. repeat split; auto.
  unfold summary, newApps. cbn [s_newApps totalProcessed fst st_duplicates].
  f_equal. apply forallb_filter_id. apply forallb_forall. reflexivity.
Qed.

Lemma without_record_id_all_new_witness :
  let p := parseCSV twoSameNames in
  checkForDuplicates true twoTwins None (p_mappings p) [] [] (p_data p)
                     (mkRemote [] [])
  = (mkRemote [] [], false, []).
Proof.
  intros p.
  refine (proj1 (without_record_id_all_new plainHostname true twoTwins None
                   (p_mappings p) [] [] (p_data p) _)).
  now left.
Defined.

(** ** Parser: one row per line *)

Lemma split_length sep s :
  List.length (JS.split sep s) = S (countChar sep s).
Proof.
  induction s as [|c s IH]; simpl; auto.
  destruct (Ascii.eqb c sep); simpl; [now rewrite IH|].
  destruct (JS.split sep s); simpl in *; lia.
Qed.

Lemma keys_set_depends_on_keys {V W : Type} (o : JS.obj V) (o' : JS.obj W) k v w :
  JS.keys o = JS.keys o' -> JS.keys (JS.set o k v) = JS.keys (JS.set o' k w).
Proof.
  intros H. destruct (in_dec string_dec k (JS.keys o)) as [Hin|Hnin].
  - rewrite !keys_set_in; auto. now rewrite <- H.
  - rewrite !keys_set_new; auto; now rewrite <- H.
Qed.

(** X20. [parseCSV] makes one row of every line after the first, blank
    lines included: the number of rows is the number of newline
    characters of the text.  All rows of a file have the same keys in the
    same order, whatever their lines hold. *)
Theorem parsed_rows_follow_lines (content : string) :
  List.length (p_data (parseCSV content)) = countChar newline content
  /\ forall row row',
       In row (p_data (parseCSV content)) ->
       In row' (p_data (parseCSV content)) ->
       JS.keys row = JS.keys row'.
Proof.
  unfold parseCSV. cbn [p_data]. split.
  - rewrite length_map.
    pose proof (split_length newline content) as H.
    destruct (JS.split newline content); simpl in *; lia.
  - intros row row' Hr Hr'.
    apply in_map_iff in Hr as (line & <- & _).
    apply in_map_iff in Hr' as (line' & <- & _).
    unfold parseLine.
    generalize (indexed (map JS.trim
                  (JS.split comma (hd EmptyString (JS.split newline content))))).
    intros l.
    assert (Hgen : forall (acc acc' : Row),
               JS.keys acc = JS.keys acc' ->
               JS.keys (fold_left
                          (fun obj ih =>
                             JS.set obj (snd ih)
                               (option_map JS.trim
                                  (nth_error (JS.split comma line) (fst ih))))
                          l acc)
               = JS.keys (fold_left
                            (fun obj ih =>
                               JS.set obj (snd ih)
                                 (option_map JS.trim
                                    (nth_error (JS.split comma line') (fst ih))))
                            l acc')).
    { induction l as [|ih l IH]; intros acc acc' H; simpl; auto.
      apply IH. now apply keys_set_depends_on_keys. }
    now apply Hgen.
Qed.

(** ** Mapper: what a re-mapping does to each key *)

Lemma get_filter {V : Type} (p : string * V -> bool) (o : JS.obj V) k :
  JS.wf o ->
  JS.get (filter p o) k
  = match JS.get o k with
    | Some v => if p (k, v) then Some v else None
    | None => None
    end.
Proof.
  unfold JS.wf, JS.keys. induction o as [|[k' v'] o IH]; intros Hwf; simpl; auto.
  inversion Hwf as [|? ? Hnin Hwf']; subst.
  destruct (String.eqb k' k) eqn:E.
  - apply String.eqb_eq in E. subst k'.
    destruct (p (k, v')) eqn:Ep; simpl.
    + now rewrite String.eqb_refl.
    + rewrite IH by assumption. now rewrite (get_absent o k Hnin).
  - destruct (p (k', v')); simpl; [rewrite E|]; now apply IH.
Qed.

(** X21. After [handleMappingChange(header, value)] the key [value]
    holds [header]; every other key that held [header] is gone; every
    other key keeps the header it had. *)
Theorem remapping_by_key (header value : string) (m : Mappings) (k : string) :
  JS.wf m ->
  JS.get (handleMappingChange header value m) k
  = if String.eqb k value then Some header
    else match JS.get m k with
         | Some h => if String.eqb h header then None else Some h
         | None => None
         end.
Proof.
  intros Hwf. rewrite handleMappingChange_spec by assumption.
  destruct (String.eqb k value) eqn:E.
  - apply String.eqb_eq in E. subst k. apply get_set_same.
  - apply String.eqb_neq in E.
    rewrite get_set_other by congruence.
    rewrite get_filter by assumption.
    destruct (JS.get m k) as [h|]; auto. simpl.
    now destruct (String.eqb h header).
Qed.

Lemma remapping_by_key_witness :
  JS.get (handleMappingChange "Notes" "developer"
            (initialMappings ["App Name"; "Notes"])) "custom_Notes"
  = if String.eqb "custom_Notes" "developer" then Some "Notes"
    else match JS.get (initialMappings ["App Name"; "Notes"]) "custom_Notes" with
         | Some h => if String.eqb h "Notes" then None else Some h
         | None => None
         end.
Proof.
  apply (remapping_by_key "Notes" "developer"
           (initialMappings ["App Name"; "Notes"]) "custom_Notes").
  apply initialMappings_inv.
Defined.
